(** * mwst: the signed-request core (src/Core/Core.ts, src/Core/CoreHelpers.ts)

    A shallow embedding of the request pipeline of the [Api] class:
    parameter normalisation, canonicalisation and signing ([CreateOptions]),
    response classification ([Requesting]), the retry loop ([CreateRequest])
    and the decoder ([CreateResponse]).

    Conventions of the embedding.
    - A JavaScript string is a [string] of bytes, its UTF-8 encoding; where
      the code compares strings, the bytes are decoded into the UTF-16 code
      units that JavaScript compares.
    - A JavaScript object is the list of its own enumerable properties in
      enumeration order: the names that are canonical array indices first, in
      ascending numeric order, then the other names in the order in which
      they were added.  [Obj.set] keeps a list in that order.
    - Objects that are shared between the caller, the client and the
      returned request live in a store and are passed by location.
    - A number is an integer [n]; [String(n)] is its decimal numeral, which
      is what JavaScript prints for the safe integers (those of magnitude
      below 2^53).  Statements that depend on how a number is printed assume
      [safe] of the values concerned. *)

From Stdlib Require Import ZArith Ascii List DecimalString DecimalPos DecimalZ Lia.
From Stdlib Require String.
From stdpp Require Import base list strings sorting.
#[local] Set Warnings "-clear-no-such-hyp".

(** ** JavaScript values and objects *)

#[warnings="-register-all"] Inductive value : Type :=
| VUndefined
| VNull
| VBool (b : bool)
| VNum (n : Z)
| VStr (s : string)
| VArr (elems : list value)
| VObj (props : list (string * value)).

(** decimal rendering of an integral number *)
Definition decimal (n : Z) : string := NilZero.string_of_int (Z.to_int n).

(** an object: its own properties, in enumeration order *)
Abbreviation obj := (list (string * value)) (only parsing).

Module Obj.

(** [Object.keys(o)] *)
Definition keys (o : obj) : list string := map fst o.

(** own property lookup; [get] is [o[k]], which is [undefined] when absent *)
Fixpoint lookup (o : obj) (k : string) : option value :=
  match o with
  | [] => None
  | (k', v) :: o' => if decide (k' = k) then Some v else lookup o' k
  end.

Definition get (o : obj) (k : string) : value :=
  default VUndefined (lookup o k).

(** the number a string of decimal digits writes *)
Fixpoint numeral (s : string) (acc : N) : option N :=
  match s with
  | EmptyString => Some acc
  | String c s' =>
      let d := N_of_ascii c in
      if (48 <=? d)%N && (d <=? 57)%N then numeral s' (acc * 10 + (d - 48))%N
      else None
  end.

(** a canonical array index: the numeral of an integer below 2^32 - 1 as
    [String] prints it, so without sign or leading zero *)
Definition index (k : string) : option N :=
  match numeral k 0 with
  | Some n =>
      if (n <? 4294967295)%N && bool_decide (decimal (Z.of_N n) = k)
      then Some n else None
  | None => None
  end.

(** a new property [k] is enumerated before the property [k'] that is there
    already: array indices by number, and before every other name *)
Definition before (k k' : string) : bool :=
  match index k, index k' with
  | Some n, Some n' => (n <? n')%N
  | Some _, None => true
  | None, _ => false
  end.

(** a new property at its place in the enumeration: an array index among the
    indices, any other name at the end *)
Fixpoint place (o : obj) (k : string) (v : value) : obj :=
  match o with
  | [] => [(k, v)]
  | (k', v') :: o' =>
      if before k k' then (k, v) :: o else (k', v') :: place o' k v
  end.

(** a property that is there takes the new value where it is *)
Fixpoint update (o : obj) (k : string) (v : value) : obj :=
  match o with
  | [] => []
  | (k', v') :: o' =>
      if decide (k' = k) then (k, v) :: o' else (k', v') :: update o' k v
  end.

(** the own property [k] of [o] defined as [v]: what an object literal and a
    spread do for every name, and [o[k] = v] for every name but [__proto__] *)
Definition set (o : obj) (k : string) (v : value) : obj :=
  match lookup o k with
  | Some _ => update o k v
  | None => place o k v
  end.

(** [o[k] = v] on a plain object: the name [__proto__], unless it is an own
    property, reaches the setter of [Object.prototype], which makes no
    property *)
Definition assign (o : obj) (k : string) (v : value) : obj :=
  if decide (k = "__proto__")
  then match lookup o k with Some _ => set o k v | None => o end
  else set o k v.

(** [delete o[k]] *)
Fixpoint delete (o : obj) (k : string) : obj :=
  match o with
  | [] => []
  | (k', v') :: o' =>
      if decide (k' = k) then delete o' k else (k', v') :: delete o' k
  end.

(** [{...target, ...src}] once [target] has been copied: the properties of
    [src] are defined on [target] in the enumeration order of [src] *)
Definition spread (target src : obj) : obj :=
  fold_left (fun acc kv => set acc kv.1 kv.2) src target.

(** an object literal [{k1: v1, ..., kn: vn}] *)
Definition literal (props : list (string * value)) : obj := spread [] props.

(** the order of enumeration: the array indices by number, before the other
    names *)
Definition listed (k1 k2 : string) : Prop :=
  match index k1, index k2 with
  | Some n1, Some n2 => (n1 <= n2)%N
  | None, Some _ => False
  | _, _ => True
  end.

(** a list that is an object: distinct keys in the order of enumeration *)
Definition wf (o : obj) : Prop :=
  NoDup (keys o) /\ StronglySorted listed (keys o).

End Obj.

(** JavaScript truthiness, as tested by [if (v)] *)
Definition truthy (v : value) : bool :=
  match v with
  | VUndefined | VNull => false
  | VBool b => b
  | VNum n => negb (n =? 0)%Z
  | VStr s => negb (if decide (s = EmptyString) then true else false)
  | VArr _ | VObj _ => true
  end.


(** [String(v)], as a template literal applies it *)
Fixpoint toString (v : value) : string :=
  match v with
  | VUndefined => "undefined"
  | VNull => "null"
  | VBool b => if b then "true" else "false"
  | VNum n => decimal n
  | VStr s => s
  | VArr elems =>
      String.concat ","
        (map (fun e => match e with
                       | VUndefined | VNull => EmptyString
                       | _ => toString e
                       end) elems)
  | VObj _ => "[object Object]"
  end.

(** ** CoreHelpers.ts: type predicates *)

Definition isUndefined (val : value) : bool :=
  match val with VUndefined => true | _ => false end.

Definition isNil (val : value) : bool :=
  isUndefined val || match val with VNull => true | _ => false end.

Definition isObject (val : value) : bool :=
  negb (isNil val) && match val with VArr _ | VObj _ => true | _ => false end.

Definition isArray (val : value) : bool :=
  match val with VArr _ => true | _ => false end.

Definition Object_keys (val : value) : list string :=
  match val with
  | VObj o => Obj.keys o
  | _ => []
  end.

Definition hasKeyObject (val : value) : bool :=
  isObject val && negb (isArray val) && (0 <? length (Object_keys val))%nat.

(** [obj[key]] on a value known to be an object *)
Definition prop (val : value) (key : string) : value :=
  match val with
  | VObj o => Obj.get o key
  | _ => VUndefined
  end.

(** ** CoreHelpers.ts: [sortObject] *)

(** The UTF-16 code units of a string, decoded from its UTF-8 bytes: one
    unit for a sequence of one, two or three bytes, a surrogate pair for a
    sequence of four.  A byte that starts no complete sequence stands for
    itself; well-formed strings have none. *)
Module UTF16.

Definition low (c : ascii) : N := (N_of_ascii c mod 64)%N.

Fixpoint units (s : string) : list N :=
  match s with
  | EmptyString => []
  | String c0 s0 =>
      let b0 := N_of_ascii c0 in
      if (b0 <? 128)%N then b0 :: units s0
      else if (b0 <? 192)%N then b0 :: units s0
      else if (b0 <? 224)%N then
        match s0 with
        | String c1 s1 => ((b0 mod 32) * 64 + low c1)%N :: units s1
        | EmptyString => [b0]
        end
      else if (b0 <? 240)%N then
        match s0 with
        | String c1 (String c2 s2) =>
            ((b0 mod 16) * 4096 + low c1 * 64 + low c2)%N :: units s2
        | _ => b0 :: units s0
        end
      else
        match s0 with
        | String c1 (String c2 (String c3 s3)) =>
            let cp := ((b0 mod 8) * 262144 + low c1 * 4096 + low c2 * 64 + low c3)%N in
            (55296 + (cp - 65536) / 1024)%N
              :: (56320 + (cp - 65536) mod 1024)%N :: units s3
        | _ => b0 :: units s0
        end
  end.

(** the string of one code unit: its UTF-8 bytes; half a surrogate pair,
    which is no character, has the three bytes of its number *)
Definition char (u : N) : string :=
  if (u <? 128)%N then String (ascii_of_N u) EmptyString
  else if (u <? 2048)%N then
    String (ascii_of_N (192 + u / 64)) (String (ascii_of_N (128 + u mod 64)) EmptyString)
  else
    String (ascii_of_N (224 + u / 4096))
      (String (ascii_of_N (128 + (u / 64) mod 64))
         (String (ascii_of_N (128 + u mod 64)) EmptyString)).

(** lexicographic comparison of code units, a proper prefix first *)
Fixpoint compare (u v : list N) : comparison :=
  match u, v with
  | [], [] => Eq
  | [], _ :: _ => Lt
  | _ :: _, [] => Gt
  | a :: u', b :: v' =>
      match (a ?= b)%N with
      | Eq => compare u' v'
      | c => c
      end
  end.

(** [s <= t] as JavaScript compares strings.  Two byte strings with the same
    code units, which well-formed strings never are unless they are equal,
    are told apart by their bytes. *)
Definition leb (s t : string) : bool :=
  match compare (units s) (units t) with
  | Lt => true
  | Gt => false
  | Eq => String.leb s t
  end.

Definition le (s t : string) : Prop := leb s t.

#[global] Instance le_dec : RelDecision le.
Proof. intros s t. unfold le. apply _. Defined.

End UTF16.

(** the order in which an object lists keys that were added in sorted
    order: the array indices by number, then the other names as [sort]
    leaves them *)
Definition enumerated (k1 k2 : string) : Prop :=
  match Obj.index k1, Obj.index k2 with
  | Some n1, Some n2 => (n1 <= n2)%N
  | Some _, None => True
  | None, Some _ => False
  | None, None => UTF16.le k1 k2
  end.

(** [Array.prototype.sort()] without a comparator on strings: ascending in
    the order of the UTF-16 code units, a proper prefix first *)
Definition sort (ks : list string) : list string :=
  merge_sort UTF16.le ks.

Definition sortObject (o : obj) : obj :=
  fold_left
    (fun all key =>
       if negb (isNil (Obj.get o key)) then Obj.assign all key (Obj.get o key) else all)
    (sort (Obj.keys o)) [].

(** ** Node's [querystring] module

    [qsStringify] is [querystring.stringify] of the Node runtime, with the
    default separators.  Characters other than [A-Z a-z 0-9 - _ . ! ~ * ' ( )]
    are written as [%XX], one escape per byte and in upper-case hexadecimal;
    an array value repeats its key once per element, an empty array gives no
    field; a value that is no string, number or boolean is written empty. *)

Module QueryString.

Definition hexDigit (n : N) : ascii :=
  nth (N.to_nat n) (String.list_ascii_of_string "0123456789ABCDEF") "0"%char.

Definition noEscape (c : ascii) : bool :=
  let n := N_of_ascii c in
  ((65 <=? n) && (n <=? 90) || (97 <=? n) && (n <=? 122)
   || (48 <=? n) && (n <=? 57)
   || existsb (N.eqb n) [33; 39; 40; 41; 42; 45; 46; 95; 126])%N.

Fixpoint escape (s : string) : string :=
  match s with
  | EmptyString => EmptyString
  | String c s' =>
      if noEscape c then String c (escape s')
      else String "%" (String (hexDigit (N_of_ascii c / 16))
                        (String (hexDigit (N_of_ascii c mod 16)) (escape s')))
  end.

Definition stringifyPrimitive (v : value) : string :=
  match v with
  | VStr s => s
  | VNum n => decimal n
  | VBool b => if b then "true" else "false"
  | _ => EmptyString
  end.

(** the fields one property contributes *)
Definition fields (kv : string * value) : list string :=
  let ks := escape kv.1 +:+ "=" in
  match kv.2 with
  | VArr elems => map (fun e => ks +:+ escape (stringifyPrimitive e)) elems
  | v => [ks +:+ escape (stringifyPrimitive v)]
  end.

Definition stringify (o : obj) : string :=
  String.concat "&" (concat (map fields o)).

End QueryString.

Definition qsStringify : obj -> string := QueryString.stringify.

(** ** The store of shared objects

    The caller's parameter map, the client's [Headers] and the parameter
    object handed to the transport are JavaScript objects reached through
    references.  The client itself ([this]) is part of the state. *)

Abbreviation loc := nat (only parsing).

Inductive TArea : Type :=
| BR | CA | MX | AE | DE | ES | FR | GB | IN | IT | TR | AU | JP | CN | US.

(** Modelled from the spec: CoreTypes.ts is not among the sources.  The
    interfaces have the fields [Core.ts] reads, typed after the data model:
    [SellerArea] is the [Area] code of the seller, [Retrying] a count,
    [Timeout] and [Throttled] seconds. *)
Record IArea : Type := { Id : string; Host : string }.
Record IAccess : Type := { AWSAccessKeyId : string; AWSAccessSecret : string }.
Record ISeller : Type := { SellerId : string; MWSAuthToken : string; SellerArea : TArea }.
Record ISetting : Type :=
  { IsMerchant : bool; Convert : string; Retrying : nat; Timeout : Z; Throttled : Z }.

(** the fields of the client; [Headers] is a reference to an object *)
Record Api : Type :=
  { Path : string; Version : string; Method : string; Action : string;
    Setting : ISetting; Headers : loc;
    Area : IArea; Access : IAccess; Seller : ISeller }.

Record world : Type := { this : Api; heap : list obj }.

Definition M (A : Type) : Type := world -> A * world.

Definition ret {A} (a : A) : M A := fun w => (a, w).
Definition bind {A B} (m : M A) (f : A -> M B) : M B :=
  fun w => let (a, w') := m w in f a w'.

Declare Scope js_scope.
Delimit Scope js_scope with js.
Notation "x <- m ;; k" := (bind m (fun x => k))
  (at level 100, m at next level, right associativity) : js_scope.
Notation "m ;;; k" := (bind m (fun _ => k))
  (at level 100, right associativity) : js_scope.
Open Scope js_scope.

Definition self : M Api := fun w => (this w, w).
Definition assign_this (f : Api -> Api) : M unit :=
  fun w => (tt, {| this := f (this w); heap := heap w |}).
Definition read (l : loc) : M obj :=
  fun w => (default [] (heap w !! l), w).
Definition write (l : loc) (o : obj) : M unit :=
  fun w => (tt, {| this := this w; heap := <[l := o]> (heap w) |}).
Definition alloc (o : obj) : M loc :=
  fun w => (length (heap w), {| this := this w; heap := heap w ++ [o] |}).

(** ** CoreHelpers.ts: [CreateArea] *)

Definition CreateArea (area : TArea) : IArea :=
  match area with
  | BR => {| Id := "A2Q3Y263D00KWC"; Host := "mws.amazonservices.com" |}
  | CA => {| Id := "A2EUQ1WTGCTBG2"; Host := "mws.amazonservices.ca" |}
  | MX => {| Id := "A1AM78C64UM0Y8"; Host := "mws.amazonservices.com.mx" |}
  | AE => {| Id := "A2VIGQ35RCS4UG"; Host := "mws.amazonservices.ae" |}
  | DE => {| Id := "A1PA6795UKMFR9"; Host := "mws-eu.amazonservices.com" |}
  | ES => {| Id := "A1RKKUPIHCS9HS"; Host := "mws-eu.amazonservices.com" |}
  | FR => {| Id := "A13V1IB3VIYZZH"; Host := "mws-eu.amazonservices.com" |}
  | GB => {| Id := "A1F83G8C2ARO7P"; Host := "mws-eu.amazonservices.com" |}
  | IN => {| Id := "A21TJRUUN4KGV"; Host := "mws.amazonservices.in" |}
  | IT => {| Id := "APJ6JRA9NG5V4"; Host := "mws-eu.amazonservices.com" |}
  | TR => {| Id := "A33AVAJ2PDY3EV"; Host := "mws-eu.amazonservices.com" |}
  | AU => {| Id := "A39IBJ37TRP1C6"; Host := "mws.amazonservices.com.au" |}
  | JP => {| Id := "A1VC38T7YXB528"; Host := "mws.amazonservices.jp" |}
  | CN => {| Id := "AAHKV2X7AFYLW"; Host := "mws.amazonservices.com.cn" |}
  | US => {| Id := "ATVPDKIKX0DER"; Host := "mws.amazonservices.com" |}
  end.

(** ** Core.ts: [CreateOptions] *)

(** [createHmac('sha256', key).update(msg).digest('base64')] is
    [base64 (hmac_sha256 key msg)]; the two primitives belong to the runtime. *)
Class Crypto : Type :=
  { hmac_sha256 : string -> string -> string;
    base64 : string -> string }.

(** the request handed to the transport: [headers], [qs] and [form] are
    references to objects of the store *)
Record Options : Type :=
  { method : string; url : string; headers : loc;
    qs : option loc; form : option loc }.

Definition assign_prop (l : loc) (k : string) (v : value) : M unit :=
  o <- read l ;; write l (Obj.set o k v).

Definition delete_prop (l : loc) (k : string) : M unit :=
  o <- read l ;; write l (Obj.delete o k).

Definition elements (val : value) : list value :=
  match val with
  | VArr elems => elems
  | _ => []
  end.

(** [arrays.forEach((val, inx) => assign[`${prefix}${inx + 1}`] = val)]; the
    name ends in a digit, so it is not [__proto__] *)
Definition expand (assign : obj) (prefix : value) (arrays : list value) : obj :=
  fold_left
    (fun a iv => Obj.set a (toString prefix +:+ decimal (Z.of_nat iv.1 + 1)) iv.2)
    (zip (seq 0 (length arrays)) arrays) assign.

(** one turn of the loop over [Object.keys(parsing)]; [assign] is local *)
Definition normalizeKey (params : loc) (parsing : value) (assign : obj)
    (key : string) : M obj :=
  let prefix := prop parsing key in
  p <- read params ;;
  let arrays := Obj.get p key in
  if isArray arrays
  then
    let assign' := expand assign prefix (elements arrays) in
    delete_prop params key ;;; ret assign'
  else ret assign.

Fixpoint normalizeKeys (params : loc) (parsing : value) (assign : obj)
    (ks : list string) : M obj :=
  match ks with
  | [] => ret assign
  | key :: ks' =>
      assign' <- normalizeKey params parsing assign key ;;
      normalizeKeys params parsing assign' ks'
  end.

(** lines 65-76: the object [params] denotes once the block has run *)
Definition normalize (params : loc) (parsing : value) : M obj :=
  if hasKeyObject parsing
  then
    assign <- normalizeKeys params parsing [] (Object_keys parsing) ;;
    p <- read params ;;
    ret (Obj.spread (Obj.spread [] p) assign)
  else read params.

(** lines 87-90: [PreParams] before it is signed *)
Definition PreParams (api : Api) (Timestamp : string) (params : obj) : obj :=
  let P :=
    Obj.spread
      (Obj.literal
         [("Action", VStr (Action api));
          ("AWSAccessKeyId", VStr (AWSAccessKeyId (Access api)));
          ("MWSAuthToken", VStr (MWSAuthToken (Seller api)));
          ("Timestamp", VStr Timestamp);
          ("Version", VStr (Version api))])
      params in
  let P := Obj.set P "SignatureMethod" (VStr "HmacSHA256") in
  let P := Obj.set P "SignatureVersion" (VStr "2") in
  if IsMerchant (Setting api)
  then Obj.set P "Merchant" (VStr (SellerId (Seller api)))
  else Obj.set P "SellerId" (VStr (SellerId (Seller api))).

Definition RemotePath (api : Api) : string :=
  "/" +:+ Path api +:+ "/" +:+ Version api.

(** the argument of [update]: the string that is signed *)
Definition StringToSign (api : Api) (P : obj) : string :=
  String.concat (String "010" EmptyString)
    [Method api; Host (Area api); RemotePath api; qsStringify (sortObject P)].

Definition Signature `{Crypto} (api : Api) (P : obj) : string :=
  base64 (hmac_sha256 (AWSAccessSecret (Access api)) (StringToSign api P)).

(** [Timestamp] is what the clock gives at line 85; the object [PreParams]
    enters the store once it is complete *)
Definition CreateOptions `{Crypto} (params : loc) (parsing : value)
    (Timestamp : string) : M Options :=
  params' <- normalize params parsing ;;
  api <- self ;;
  let P := PreParams api Timestamp params' in
  PreParams <- alloc (Obj.set P "Signature" (VStr (Signature api P))) ;;
  assign_prop (Headers api) "Host" (VStr (Host (Area api))) ;;;
  (if decide (Method api = "POST")
   then assign_prop (Headers api) "Content-Type"
          (VStr "application/x-www-form-urlencoded")
   else ret tt) ;;;
  ret {| method := Method api;
         url := "https://" +:+ Host (Area api) +:+ "/" +:+ RemotePath api;
         headers := Headers api;
         qs := if decide (Method api = "GET") then Some PreParams else None;
         form := if decide (Method api = "GET") then None else Some PreParams |}.

(** [ConfigureArea] and [GetArea] *)
Definition ConfigureArea (area : TArea) : M unit :=
  assign_this (fun api =>
    {| Path := Path api; Version := Version api; Method := Method api;
       Action := Action api; Setting := Setting api; Headers := Headers api;
       Area := CreateArea area; Access := Access api; Seller := Seller api |}).

Definition GetArea (area : TArea) : IArea := CreateArea area.

(** ** Errors and promises *)

(** Modelled from the spec: CoreErrors.ts is not among the sources.  Its
    classes are the kinds of the error taxonomy, none a subclass of another,
    so that [instanceof] tells them apart.  [TypeError] is the runtime's own
    exception for a property read on [undefined] or [null]. *)
Inductive exn : Type :=
| ConfigurationError
| LocalRequestError
| LocalExceededError
| RequestTimeoutError
| QuotaExceeded
| RequestThrottled
| InputStreamDisconnected
| InvalidParameterValue
| AccessDenied
| InvalidAccessKeyId
| SignatureDoesNotMatch
| InvalidAddress
| InternalError
| UndefinedRequestError
| TypeError.

#[global] Instance exn_eq_dec : EqDecision exn.
Proof. solve_decision. Defined.

(** how a promise, or a call that may throw, ends *)
Inductive settled (A : Type) : Type :=
| Resolve (a : A)
| Reject (e : exn).
Arguments Resolve {A} a.
Arguments Reject {A} e.

(** ** CoreHelpers.ts: [Requesting] *)

(** what the transport passes to the callback: [error] (with its [code], if
    it has one) or else the status and the body of the response *)
Record TransportError : Type := { code : option string }.
Record transport : Type :=
  { error : option TransportError; statusCode : Z; body : string }.

Module RegExp.

(** [/needle/.test(s)] for a pattern without metacharacters *)
Fixpoint contains (needle s : string) : bool :=
  String.prefix needle s ||
  match s with
  | EmptyString => false
  | String _ s' => contains needle s'
  end.

Fixpoint dropPrefix (p s : string) : option string :=
  match p, s with
  | EmptyString, _ => Some s
  | String a p', String b s' => if decide (a = b) then dropPrefix p' s' else None
  | String _ _, EmptyString => None
  end.

(** a line terminator, which [.] does not match: LF, CR, U+2028, U+2029 *)
Definition lineTerminator (s : string) : bool :=
  String.prefix (String "010" EmptyString) s || String.prefix (String "013" EmptyString) s
  || String.prefix (String "226" (String "128" (String "168" EmptyString))) s
  || String.prefix (String "226" (String "128" (String "169" EmptyString))) s.

(** [.*>[\s\S]*<\/ErrorResponse>] matched from the start of [s] *)
Fixpoint envelopeRest (s : string) : bool :=
  match s with
  | EmptyString => false
  | String c s' =>
      (if decide (c = ">"%char) then contains "</ErrorResponse>" s' else false)
      || (if lineTerminator s then false else envelopeRest s')
  end.

(** [/<ErrorResponse.*>[\s\S]*<\/ErrorResponse>/.test(s)] *)
Fixpoint envelope (s : string) : bool :=
  match dropPrefix "<ErrorResponse" s with
  | Some rest => envelopeRest rest
  | None => false
  end ||
  match s with
  | EmptyString => false
  | String _ s' => envelope s'
  end.

End RegExp.

Definition isTimeoutCode (c : option string) : bool :=
  match c with
  | Some c => bool_decide (c = "ESOCKETTIMEDOUT") || bool_decide (c = "ETIMEDOUT")
  | None => false
  end.

Definition Requesting (r : transport) : settled string :=
  match error r with
  | Some e =>
      if isTimeoutCode (code e) then Reject RequestTimeoutError
      else Reject LocalRequestError
  | None =>
      let status := statusCode r in
      let test re := RegExp.contains re (body r) in
      if (status =? 400)%Z && test "InputStreamDisconnected" then Reject InputStreamDisconnected
      else if (status =? 400)%Z && test "InvalidParameterValue" then Reject InvalidParameterValue
      else if (status =? 401)%Z && test "AccessDenied" then Reject AccessDenied
      else if (status =? 403)%Z && test "InvalidAccessKeyId" then Reject InvalidAccessKeyId
      else if (status =? 403)%Z && test "SignatureDoesNotMatch" then Reject SignatureDoesNotMatch
      else if (status =? 404)%Z && test "InvalidAddress" then Reject InvalidAddress
      else if (status =? 500)%Z && test "InternalError" then Reject InternalError
      else if (status =? 503)%Z && test "QuotaExceeded" then Reject QuotaExceeded
      else if (status =? 503)%Z && test "RequestThrottled" then Reject RequestThrottled
      else if RegExp.envelope (body r) then Reject UndefinedRequestError
      else Resolve (body r)
  end.

(** ** Core.ts: [CreateResponse] and [CreateRequest] *)

(** [fast-xml-parser]'s [parse], with the options of the call site *)
Class XmlParser : Type := { xmlParser : string -> value }.

(** [v[k]] for a property name that no built-in prototype defines: a
    [TypeError] on [undefined] and [null], the own property of an object,
    [undefined] on every other value *)
Definition member (v : value) (k : string) : settled value :=
  match v with
  | VUndefined | VNull => Reject TypeError
  | VObj o => Resolve (Obj.get o k)
  | _ => Resolve VUndefined
  end.

Definition CreateResponse `{XmlParser} (api : Api) (body : string) : settled value :=
  let res := xmlParser body in
  match member res "ErrorResponse" with
  | Reject e => Reject e
  | Resolve ErrorResponse =>
      if truthy ErrorResponse then Reject UndefinedRequestError
      else
        match member res (Action api +:+ "Response") with
        | Reject e => Reject e
        | Resolve response => member response (Action api +:+ "Result")
        end
  end.

(** what the call does to the outside, in order *)
Inductive event : Type :=
| Send (options : Options)
| Sleep (second : Z).

(** the body of the [try] block *)
Definition tryRequest `{XmlParser} (api : Api) (r : transport) : settled value :=
  match Requesting r with
  | Reject e => Reject e
  | Resolve body =>
      if decide (Convert (Setting api) = "XML") then Resolve (VStr body)
      else CreateResponse api body
  end.

(** the [for] loop with [n] turns left, at index [i]; [net i] is what the
    transport answers to the request of turn [i] *)
Fixpoint attempts `{XmlParser} (api : Api) (options : Options)
    (net : nat -> transport) (n i : nat) : settled value * list event :=
  match n with
  | 0 => (Reject LocalExceededError, [])
  | S n' =>
      let next pause :=
        let (r, tr) := attempts api options net n' (S i) in
        (r, Send options :: pause ++ tr) in
      match tryRequest api (net i) with
      | Resolve v => (Resolve v, [Send options])
      | Reject RequestTimeoutError => next []
      | Reject QuotaExceeded => next [Sleep (60 * 60)]
      | Reject RequestThrottled => next [Sleep (Throttled (Setting api))]
      | Reject e => (Reject e, [Send options])
      end
  end.

Definition CreateRequest `{XmlParser} (api : Api) (options : Options)
    (net : nat -> transport) : settled value * list event :=
  attempts api options net (Retrying (Setting api) + 1) 0.

(** * Properties *)

(** ** Objects as finite maps *)

Module ObjFacts.

Lemma lookup_update (o : obj) k v k' :
  Obj.lookup (Obj.update o k v) k' =
    if decide (k = k') then (fun _ => v) <$> Obj.lookup o k else Obj.lookup o k'.
Proof.
  induction o as [|[k0 v0] o IH]; simpl.
  - by case_decide.
  - destruct (decide (k0 = k)) as [->|Hne]; simpl.
    + repeat case_decide; congruence.
    + rewrite IH. repeat case_decide; congruence.
Qed.

Lemma keys_update (o : obj) k v : Obj.keys (Obj.update o k v) = Obj.keys o.
Proof.
  induction o as [|[k0 v0] o IH]; simpl; [done|].
  destruct (decide (k0 = k)) as [->|Hne]; simpl; [done|].
  unfold Obj.keys in *. by rewrite IH.
Qed.

Lemma keys_place (o : obj) k v : Obj.keys (Obj.place o k v) ≡ₚ k :: Obj.keys o.
Proof.
  induction o as [|[k0 v0] o IH]; simpl; [done|].
  destruct (Obj.before k k0); simpl; [done|].
  unfold Obj.keys in *. rewrite IH. apply Permutation_swap.
Qed.

Lemma lookup_place (o : obj) k v k' :
  Obj.lookup o k = None ->
  Obj.lookup (Obj.place o k v) k' = if decide (k = k') then Some v else Obj.lookup o k'.
Proof.
  induction o as [|[k0 v0] o IH]; simpl; intros Hk.
  - by case_decide.
  - destruct (decide (k0 = k)) as [->|Hne]; [done|].
    destruct (Obj.before k k0); simpl.
    + repeat case_decide; congruence.
    + rewrite IH by done. repeat case_decide; congruence.
Qed.

Lemma lookup_set (o : obj) k v k' :
  Obj.lookup (Obj.set o k v) k' = if decide (k = k') then Some v else Obj.lookup o k'.
Proof.
  unfold Obj.set. destruct (Obj.lookup o k) as [v0|] eqn:Hk.
  - rewrite lookup_update, Hk. by case_decide.
  - by apply lookup_place.
Qed.

Lemma lookup_delete (o : obj) k k' :
  Obj.lookup (Obj.delete o k) k' = if decide (k = k') then None else Obj.lookup o k'.
Proof.
  induction o as [|[k0 v0] o IH]; simpl.
  - by case_decide.
  - destruct (decide (k0 = k)) as [->|Hne]; simpl.
    + rewrite IH. repeat case_decide; congruence.
    + rewrite IH. repeat case_decide; congruence.
Qed.

Lemma lookup_None (o : obj) k : Obj.lookup o k = None <-> k ∉ Obj.keys o.
Proof.
  induction o as [|[k0 v0] o IH]; simpl.
  - split; [intros _; apply not_elem_of_nil | done].
  - rewrite not_elem_of_cons, <- IH. case_decide; naive_solver.
Qed.

Lemma lookup_Some_keys (o : obj) k v : Obj.lookup o k = Some v -> k ∈ Obj.keys o.
Proof.
  intros Hl. destruct (decide (k ∈ Obj.keys o)) as [|Hn]; [done|].
  apply lookup_None in Hn. congruence.
Qed.

Lemma keys_lookup (o : obj) k : k ∈ Obj.keys o -> exists v, Obj.lookup o k = Some v.
Proof.
  intros Hin. destruct (Obj.lookup o k) as [v|] eqn:E; [eauto|].
  apply lookup_None in E. done.
Qed.

Lemma elem_of_keys_set (o : obj) k v k' :
  k' ∈ Obj.keys (Obj.set o k v) <-> k' = k \/ k' ∈ Obj.keys o.
Proof.
  split.
  - intros Hin. apply keys_lookup in Hin as [v' Hv]. rewrite lookup_set in Hv.
    case_decide; [by left | right; eauto using lookup_Some_keys].
  - intros Hor. destruct (Obj.lookup (Obj.set o k v) k') eqn:E;
      [eauto using lookup_Some_keys|].
    rewrite lookup_set in E. case_decide; [done|].
    apply lookup_None in E. naive_solver.
Qed.

Lemma NoDup_keys_set (o : obj) k v :
  NoDup (Obj.keys o) -> NoDup (Obj.keys (Obj.set o k v)).
Proof.
  intros Hnd. unfold Obj.set. destruct (Obj.lookup o k) as [v0|] eqn:Hk.
  - by rewrite keys_update.
  - rewrite keys_place. apply NoDup_cons. split; [|done]. by apply lookup_None.
Qed.

Lemma elem_of_keys_delete (o : obj) k k' :
  k' ∈ Obj.keys (Obj.delete o k) <-> k' ≠ k /\ k' ∈ Obj.keys o.
Proof.
  split.
  - intros Hin. apply keys_lookup in Hin as [v' Hv]. rewrite lookup_delete in Hv.
    case_decide; [done|]. split; [congruence | eauto using lookup_Some_keys].
  - intros [Hne Hin]. apply keys_lookup in Hin as [v' Hv].
    apply (lookup_Some_keys _ _ v'). rewrite lookup_delete. by case_decide.
Qed.

Lemma NoDup_keys_delete (o : obj) k :
  NoDup (Obj.keys o) -> NoDup (Obj.keys (Obj.delete o k)).
Proof.
  induction o as [|[k0 v0] o IH]; simpl; intros Hnd; [done|].
  apply NoDup_cons in Hnd as [Hni Hnd].
  destruct (decide (k0 = k)) as [->|Hne]; simpl; [by apply IH|].
  apply NoDup_cons. split; [|by apply IH].
  rewrite elem_of_keys_delete. naive_solver.
Qed.

Lemma NoDup_keys_spread (t s : obj) :
  NoDup (Obj.keys t) -> NoDup (Obj.keys (Obj.spread t s)).
Proof.
  unfold Obj.spread. revert t.
  induction s as [|[k v] s IH]; simpl; intros t Hnd; [done|].
  by apply IH, NoDup_keys_set.
Qed.

(** with distinct keys, a spread is a right-biased union *)
Lemma lookup_spread (t s : obj) k :
  NoDup (Obj.keys s) ->
  Obj.lookup (Obj.spread t s) k =
    match Obj.lookup s k with Some v => Some v | None => Obj.lookup t k end.
Proof.
  unfold Obj.spread. revert t.
  induction s as [|[k0 v0] s IH]; simpl; intros t Hnd; [done|].
  apply NoDup_cons in Hnd as [Hni Hnd].
  rewrite IH by done. rewrite lookup_set.
  destruct (decide (k0 = k)) as [->|Hne]; [|done].
  apply lookup_None in Hni. by rewrite Hni.
Qed.

Lemma lookup_spread_nil (s : obj) k :
  NoDup (Obj.keys s) -> Obj.lookup (Obj.spread [] s) k = Obj.lookup s k.
Proof. intros Hnd. rewrite lookup_spread by done. by destruct (Obj.lookup s k). Qed.

End ObjFacts.

(** ** The order of [sort] *)

Module OrderFacts.

Lemma compare_refl u : UTF16.compare u u = Eq.
Proof. induction u as [|a u IH]; simpl; [done|]. by rewrite N.compare_refl. Qed.

Lemma compare_eq u v : UTF16.compare u v = Eq -> u = v.
Proof.
  revert v. induction u as [|a u IH]; intros [|b v]; simpl; try done.
  destruct (a ?= b)%N eqn:E; try done.
  apply N.compare_eq_iff in E as ->. intros Huv. f_equal. by apply IH.
Qed.

Lemma compare_antisym u v : UTF16.compare v u = CompOpp (UTF16.compare u v).
Proof.
  revert v. induction u as [|a u IH]; intros [|b v]; simpl; try done.
  rewrite (N.compare_antisym a b). destruct (a ?= b)%N; simpl; [apply IH|done..].
Qed.

Lemma compare_lt_trans u v w :
  UTF16.compare u v = Lt -> UTF16.compare v w = Lt -> UTF16.compare u w = Lt.
Proof.
  revert v w. induction u as [|a u IH]; intros [|b v] [|c w]; simpl; try done.
  destruct (a ?= b)%N eqn:Eab; try done.
  - apply N.compare_eq_iff in Eab as ->.
    destruct (b ?= c)%N; try done. apply IH.
  - intros _. destruct (b ?= c)%N eqn:Ebc; try done.
    + apply N.compare_eq_iff in Ebc as <-. by rewrite Eab.
    + intros _. apply N.compare_lt_iff in Eab, Ebc.
      assert ((a ?= c)%N = Lt) as ->; [|done].
      apply N.compare_lt_iff. by etrans.
Qed.

#[global] Instance le_po : PartialOrder UTF16.le.
Proof.
  unfold UTF16.le, UTF16.leb. split; [split|].
  - intros s. rewrite compare_refl. apply (reflexivity (R := String.le)).
  - intros s t u.
    destruct (UTF16.compare (UTF16.units s) (UTF16.units t)) eqn:Est; [| |done].
    + apply compare_eq in Est. rewrite Est.
      destruct (UTF16.compare (UTF16.units t) (UTF16.units u)); try done.
      apply (transitivity (R := String.le)).
    + intros _.
      destruct (UTF16.compare (UTF16.units t) (UTF16.units u)) eqn:Etu; [| |done].
      * apply compare_eq in Etu. by rewrite <- Etu, Est.
      * by rewrite (compare_lt_trans _ _ _ Est Etu).
  - intros s t. rewrite (compare_antisym (UTF16.units s) (UTF16.units t)).
    destruct (UTF16.compare (UTF16.units s) (UTF16.units t)); simpl; try done.
    apply (anti_symm String.le).
Qed.

#[global] Instance le_total : Total UTF16.le.
Proof.
  intros s t. unfold UTF16.le, UTF16.leb.
  rewrite (compare_antisym (UTF16.units s) (UTF16.units t)).
  destruct (UTF16.compare (UTF16.units s) (UTF16.units t)); simpl; auto.
  apply (total String.le).
Qed.

(** a string is the numeral of one number at most *)
Lemma index_inj (k1 k2 : string) (n : N) :
  Obj.index k1 = Some n -> Obj.index k2 = Some n -> k1 = k2.
Proof.
  unfold Obj.index. intros H1 H2.
  destruct (Obj.numeral k1 0) as [n1|]; [|done].
  destruct (Obj.numeral k2 0) as [n2|]; [|done].
  destruct (_ && _) eqn:E1 in H1; [|done].
  destruct (_ && _) eqn:E2 in H2; [|done].
  apply andb_true_iff in E1 as [_ E1%bool_decide_eq_true].
  apply andb_true_iff in E2 as [_ E2%bool_decide_eq_true].
  congruence.
Qed.

#[global] Instance enumerated_po : PartialOrder enumerated.
Proof.
  unfold enumerated. split; [split|].
  - intros k. destruct (Obj.index k); [done|]. reflexivity.
  - intros k1 k2 k3.
    destruct (Obj.index k1), (Obj.index k2), (Obj.index k3); try done.
    + intros. by etrans.
    + apply transitivity.
  - intros k1 k2.
    destruct (Obj.index k1) as [n1|] eqn:E1, (Obj.index k2) as [n2|] eqn:E2;
      try done.
    + intros H12 H21. assert (n1 = n2) as -> by by apply (anti_symm N.le).
      by apply (index_inj _ _ n2).
    + apply (anti_symm UTF16.le).
Qed.

#[global] Instance enumerated_total : Total enumerated.
Proof.
  intros k1 k2. unfold enumerated.
  destruct (Obj.index k1), (Obj.index k2); auto.
  - apply (total N.le).
  - apply (total UTF16.le).
Qed.


End OrderFacts.

(** ** [sortObject]: the entries that are not nil, in the order of an object *)

Module SortFacts.
Import ObjFacts OrderFacts.

Lemma set_fresh (o : obj) k v :
  k ∉ Obj.keys o -> Obj.index k = None -> Obj.set o k v = o ++ [(k, v)].
Proof.
  intros Hni Hi. unfold Obj.set. apply lookup_None in Hni. rewrite Hni.
  clear Hni. induction o as [|[k0 v0] o IH]; simpl; [done|].
  unfold Obj.before. rewrite Hi. by rewrite IH.
Qed.

Lemma lookup_assign (o : obj) k v k' :
  Obj.lookup o "__proto__" = None ->
  Obj.lookup (Obj.assign o k v) k' =
    if decide (k = k' /\ k ≠ "__proto__") then Some v else Obj.lookup o k'.
Proof.
  intros Hp. unfold Obj.assign. destruct (decide (k = "__proto__")) as [->|Hne].
  - rewrite Hp. case_decide; naive_solver.
  - rewrite lookup_set. repeat case_decide; naive_solver.
Qed.

Lemma NoDup_keys_assign (o : obj) k v :
  NoDup (Obj.keys o) -> NoDup (Obj.keys (Obj.assign o k v)).
Proof.
  intros Hnd. unfold Obj.assign.
  destruct (decide _); [destruct (Obj.lookup o k)|]; auto using NoDup_keys_set.
Qed.

(** one turn of the [reduce] of [sortObject] *)
Definition keep (o : obj) (all : obj) (key : string) : obj :=
  if negb (isNil (Obj.get o key)) then Obj.assign all key (Obj.get o key) else all.

Lemma keep_proto o acc k0 :
  Obj.lookup acc "__proto__" = None ->
  Obj.lookup (keep o acc k0) "__proto__" = None.
Proof.
  intros Hp. unfold keep. destruct (negb _); [|done].
  rewrite lookup_assign by done. by destruct (decide _) as [[-> ?]|].
Qed.

Lemma lookup_keep o ks k : forall acc,
  Obj.lookup acc "__proto__" = None ->
  Obj.lookup (fold_left (keep o) ks acc) k =
    if decide (k ∈ ks /\ k ≠ "__proto__" /\ isNil (Obj.get o k) = false)
    then Some (Obj.get o k) else Obj.lookup acc k.
Proof.
  induction ks as [|k0 ks IH]; intros acc Hp; cbn [fold_left].
  - destruct (decide _) as [[Hin _]|]; [|done]. by apply elem_of_nil in Hin.
  - rewrite IH by (by apply keep_proto). clear IH. unfold keep.
    destruct (isNil (Obj.get o k0)) eqn:Hnil; simpl.
    + destruct (decide (k ∈ ks /\ _)) as [(Hin & Hk & Hv)|Hno],
        (decide (k ∈ k0 :: ks /\ _)) as [(Hin' & Hk' & Hv')|Hno']; try done.
      * exfalso. apply Hno'. repeat split; [by right|done..].
      * exfalso. apply elem_of_cons in Hin' as [->|Hin']; [congruence|].
        by apply Hno.
    + rewrite lookup_assign by done.
      destruct (decide (k ∈ ks /\ _)) as [(Hin & Hk & Hv)|Hno],
        (decide (k ∈ k0 :: ks /\ _)) as [(Hin' & Hk' & Hv')|Hno']; try done.
      * exfalso. apply Hno'. repeat split; [by right|done..].
      * apply elem_of_cons in Hin' as [->|Hin']; [|exfalso; by apply Hno].
        by rewrite decide_True.
      * destruct (decide (k0 = k /\ _)) as [[-> Hk0]|]; [|done].
        exfalso. apply Hno'. repeat split; [by left|done..].
Qed.

Lemma NoDup_keys_keep o ks : forall acc,
  NoDup (Obj.keys acc) -> NoDup (Obj.keys (fold_left (keep o) ks acc)).
Proof.
  induction ks as [|k0 ks IH]; intros acc Hnd; simpl; [done|].
  apply IH. unfold keep. destruct (negb _); auto using NoDup_keys_assign.
Qed.

Lemma elem_of_sort ks k : k ∈ sort ks <-> k ∈ ks.
Proof. unfold sort. by rewrite merge_sort_Permutation. Qed.

Lemma NoDup_sort ks : NoDup ks -> NoDup (sort ks).
Proof. unfold sort. by rewrite merge_sort_Permutation. Qed.

Lemma Sorted_sort ks : Sorted UTF16.le (sort ks).
Proof. apply Sorted_merge_sort, _. Qed.


Lemma sortObject_fold (o : obj) :
  sortObject o = fold_left (keep o) (sort (Obj.keys o)) [].
Proof. done. Qed.

(** a key survives exactly when it is there with a value that is not nil,
    and it keeps that value; the name [__proto__] never survives *)
Lemma lookup_sortObject (o : obj) k :
  Obj.lookup (sortObject o) k =
    if decide (k = "__proto__") then None
    else match Obj.lookup o k with
         | Some v => if isNil v then None else Some v
         | None => None
         end.
Proof.
  rewrite sortObject_fold, lookup_keep by done. simpl.
  unfold Obj.get. destruct (decide (k = "__proto__")) as [->|Hne].
  - case_decide; naive_solver.
  - destruct (Obj.lookup o k) as [v|] eqn:E; simpl.
    + destruct (isNil v) eqn:Hv; destruct (decide _) as [Hd|Hd]; try done.
      * naive_solver.
      * exfalso. apply Hd. split; [|done].
        apply elem_of_sort. eauto using lookup_Some_keys.
    + destruct (decide _) as [Hd|Hd]; [|done]. by destruct Hd as (_ & _ & ?).
Qed.

Lemma NoDup_keys_sortObject (o : obj) : NoDup (Obj.keys (sortObject o)).
Proof. rewrite sortObject_fold. apply NoDup_keys_keep, NoDup_nil_2. Qed.

(** a new key at its place keeps the keys in order, if it follows the names
    that are there when it is a name itself *)
Lemma StronglySorted_place (o : obj) k v :
  StronglySorted enumerated (Obj.keys o) ->
  (Obj.index k = None -> Forall (fun k' => enumerated k' k) (Obj.keys o)) ->
  StronglySorted enumerated (Obj.keys (Obj.place o k v)).
Proof.
  induction o as [|[k0 v0] o IH]; simpl; intros Hs Hnames.
  - repeat constructor.
  - apply StronglySorted_inv in Hs as [Hs Hk0].
    destruct (Obj.before k k0) eqn:Hb; simpl.
    + assert (Hkk0 : enumerated k k0).
      { unfold Obj.before in Hb. unfold enumerated.
        destruct (Obj.index k), (Obj.index k0); try done.
        apply N.ltb_lt in Hb. by apply N.lt_le_incl. }
      constructor; [by constructor|]. constructor; [done|].
      eapply Forall_impl; [exact Hk0|]. intros k' Hk'. by etrans.
    + constructor.
      * apply IH; [done|]. intros Hi. by apply Forall_cons in Hnames as [_ ?].
      * rewrite keys_place. constructor; [|done].
        unfold Obj.before in Hb.
        destruct (Obj.index k) as [n|] eqn:Hi.
        -- unfold enumerated. rewrite Hi.
           destruct (Obj.index k0) as [n0|]; [|done]. by apply N.ltb_ge in Hb.
        -- by apply Forall_cons in Hnames as [? _].
Qed.

(** [Obj.set] and [Obj.delete] keep a list in the order of enumeration *)
Lemma listed_place (o : obj) k v :
  StronglySorted Obj.listed (Obj.keys o) ->
  StronglySorted Obj.listed (Obj.keys (Obj.place o k v)).
Proof.
  induction o as [|[k0 v0] o IH]; simpl; intros Hs.
  - repeat constructor.
  - apply StronglySorted_inv in Hs as [Hs Hk0].
    destruct (Obj.before k k0) eqn:Hb; simpl.
    + assert (Hkk0 : Obj.listed k k0).
      { unfold Obj.before in Hb. unfold Obj.listed.
        destruct (Obj.index k), (Obj.index k0); try done.
        apply N.ltb_lt in Hb. by apply N.lt_le_incl. }
      constructor; [by constructor|]. constructor; [done|].
      eapply Forall_impl; [exact Hk0|]. intros k' Hk'.
      unfold Obj.listed in *.
      destruct (Obj.index k), (Obj.index k0), (Obj.index k'); try done.
      by etrans.
    + constructor; [by apply IH|].
      rewrite keys_place. constructor; [|done].
      unfold Obj.before in Hb. unfold Obj.listed.
      destruct (Obj.index k) as [n|], (Obj.index k0) as [n0|]; try done.
      by apply N.ltb_ge in Hb.
Qed.

Lemma wf_set (o : obj) k v : Obj.wf o -> Obj.wf (Obj.set o k v).
Proof.
  intros [Hnd Hs]. split; [by apply NoDup_keys_set|].
  unfold Obj.set. destruct (Obj.lookup o k).
  - by rewrite keys_update.
  - by apply listed_place.
Qed.

Lemma wf_delete (o : obj) k : Obj.wf o -> Obj.wf (Obj.delete o k).
Proof.
  intros [Hnd Hs]. split; [by apply NoDup_keys_delete|]. clear Hnd.
  induction o as [|[k0 v0] o IH]; simpl; [constructor|].
  apply StronglySorted_inv in Hs as [Hs Hk0].
  destruct (decide (k0 = k)); [by apply IH|]. simpl.
  constructor; [by apply IH|]. rewrite Forall_forall in *.
  intros k' Hk'. apply Hk0. by apply elem_of_keys_delete in Hk' as [_ ?].
Qed.

Lemma StronglySorted_keep o ks : forall acc,
  StronglySorted UTF16.le ks -> NoDup ks ->
  StronglySorted enumerated (Obj.keys acc) ->
  (forall k' k, k' ∈ Obj.keys acc -> k ∈ ks -> UTF16.le k' k /\ k' ≠ k) ->
  StronglySorted enumerated (Obj.keys (fold_left (keep o) ks acc)).
Proof.
  induction ks as [|k0 ks IH]; intros acc Hs Hnd Hacc Hbefore; simpl; [done|].
  apply StronglySorted_inv in Hs as [Hs Hk0]. apply NoDup_cons in Hnd as [Hni Hnd].
  rewrite Forall_forall in Hk0.
  assert (Hfresh : Obj.lookup acc k0 = None).
  { apply lookup_None. intros Hin. destruct (Hbefore k0 k0 Hin); [left|done]. }
  assert (Hkeys : forall k', k' ∈ Obj.keys (keep o acc k0) -> k' = k0 \/ k' ∈ Obj.keys acc).
  { intros k'. unfold keep, Obj.assign.
    destruct (negb _); [|by right]. destruct (decide _); [rewrite Hfresh; by right|].
    rewrite elem_of_keys_set. naive_solver. }
  apply IH; [done|done| |].
  - unfold keep, Obj.assign. destruct (negb _); [|done].
    destruct (decide _); [by rewrite Hfresh|].
    unfold Obj.set. rewrite Hfresh. apply StronglySorted_place; [done|].
    intros Hi0. apply Forall_forall. intros k' Hin.
    destruct (Hbefore k' k0 Hin) as [Hle _]; [left|].
    unfold enumerated. rewrite Hi0. by destruct (Obj.index k').
  - intros k' k Hin Hk. destruct (Hkeys k' Hin) as [->|Hin'].
    + split; [by apply Hk0|]. intros ->. done.
    + apply Hbefore; [done|by right].
Qed.

(** the keys of a sorted object: the array indices by number, then the other
    names in the order of [sort] *)
Lemma Sorted_keys_sortObject (o : obj) :
  NoDup (Obj.keys o) -> StronglySorted enumerated (Obj.keys (sortObject o)).
Proof.
  intros Hnd. rewrite sortObject_fold. apply StronglySorted_keep.
  - apply Sorted_StronglySorted; [apply _|apply Sorted_sort].
  - by apply NoDup_sort.
  - constructor.
  - intros k' k Hin. by apply elem_of_nil in Hin.
Qed.



(** an object is its keys in order and what they hold *)
Lemma obj_ext (o1 o2 : obj) :
  NoDup (Obj.keys o1) -> Obj.keys o1 = Obj.keys o2 ->
  (forall k, Obj.lookup o1 k = Obj.lookup o2 k) -> o1 = o2.
Proof.
  revert o2. induction o1 as [|[k1 v1] o1 IH]; intros [|[k2 v2] o2]; simpl;
    try done.
  intros [Hni Hnd]%NoDup_cons [= <- Hks] Heq.
  pose proof (Heq k1) as Hk. rewrite !decide_True in Hk by done.
  injection Hk as <-. f_equal. apply IH; [done|done|].
  intros k. specialize (Heq k). destruct (decide (k1 = k)) as [<-|]; [|done].
  apply lookup_None in Hni as Hn1. rewrite Hn1. symmetry. apply lookup_None.
  by rewrite <- Hks.
Qed.

Lemma obj_ext_sorted (o1 o2 : obj) :
  NoDup (Obj.keys o1) -> NoDup (Obj.keys o2) ->
  StronglySorted enumerated (Obj.keys o1) ->
  StronglySorted enumerated (Obj.keys o2) ->
  (forall k, Obj.lookup o1 k = Obj.lookup o2 k) -> o1 = o2.
Proof.
  intros Hnd1 Hnd2 Hs1 Hs2 Heq. apply obj_ext; [done| |done].
  apply (StronglySorted_unique enumerated); [done..|].
  apply NoDup_Permutation; [done..|]. intros k.
  split; intros [v Hv]%keys_lookup; apply (lookup_Some_keys _ _ v); congruence.
Qed.

End SortFacts.

(** ** The store: what the normalisation loop does to the caller's map *)

Module StoreFacts.

(** the object a reference denotes *)
Definition deref (w : world) (l : loc) : obj := default [] (heap w !! l).

(** the parameter object a request carries: [qs] or [form] *)
Definition sent (r : Options * world) : obj :=
  match qs r.1, form r.1 with
  | Some l, _ => deref r.2 l
  | None, Some l => deref r.2 l
  | None, None => []
  end.

(** one turn of the loop on the pair of [params] and [assign] *)
Definition normStep (parsing : value) (st : obj * obj) (key : string) : obj * obj :=
  if isArray (Obj.get st.1 key)
  then (Obj.delete st.1 key,
        expand st.2 (prop parsing key) (elements (Obj.get st.1 key)))
  else st.

Definition normSteps (parsing : value) (ks : list string) (st : obj * obj) : obj * obj :=
  fold_left (normStep parsing) ks st.

Lemma insert_deref (h : list obj) (l : loc) : <[l := default [] (h !! l)]> h = h.
Proof.
  destruct (h !! l) as [o|] eqn:E; simpl.
  - by apply list_insert_id.
  - apply list_insert_ge. by apply lookup_ge_None.
Qed.

(** reading back the map the loop has just written *)
Lemma deref_normStep (w : world) (l : loc) parsing (a : obj) key :
  let st := normStep parsing (deref w l, a) key in
  deref {| this := this w; heap := <[l := st.1]> (heap w) |} l = st.1.
Proof.
  simpl. unfold deref at 1; simpl.
  destruct (decide (l < length (heap w))) as [Hl|Hl].
  - by rewrite list_lookup_insert_eq.
  - rewrite list_insert_ge by lia. fold (deref w l).
    assert (deref w l = []) as ->; [|done].
    unfold deref. rewrite lookup_ge_None_2 by lia. done.
Qed.

Lemma normalizeKey_run (l : loc) (parsing : value) (assign : obj) key (w : world) :
  normalizeKey l parsing assign key w =
    let st := normStep parsing (deref w l, assign) key in
    (st.2, {| this := this w; heap := <[l := st.1]> (heap w) |}).
Proof.
  unfold normalizeKey, bind, read, delete_prop, write, ret, normStep; simpl.
  fold (deref w l).
  destruct (isArray (Obj.get (deref w l) key)); simpl; [done|].
  unfold deref. rewrite insert_deref. by destruct w.
Qed.

Lemma normalizeKeys_run (l : loc) (parsing : value) (ks : list string) :
  forall (assign : obj) (w : world),
    normalizeKeys l parsing assign ks w =
      let st := normSteps parsing ks (deref w l, assign) in
      (st.2, {| this := this w; heap := <[l := st.1]> (heap w) |}).
Proof.
  induction ks as [|key ks IH]; intros assign w; simpl.
  - unfold ret, deref. rewrite insert_deref. by destruct w.
  - unfold bind. rewrite normalizeKey_run. cbv beta iota zeta.
    rewrite IH. cbv beta iota zeta. rewrite deref_normStep. simpl.
    rewrite list_insert_insert_eq.
    by destruct (normStep parsing (deref w l, assign) key).
Qed.

Lemma normSteps_unallocated parsing ks (a : obj) :
  normSteps parsing ks ([], a) = ([], a).
Proof. induction ks as [|k ks IH]; [done|]. unfold normSteps in *. simpl. apply IH. Qed.

Lemma deref_normSteps (w : world) (l : loc) parsing (a : obj) ks :
  let st := normSteps parsing ks (deref w l, a) in
  default [] (<[l := st.1]> (heap w) !! l) = st.1.
Proof.
  simpl. destruct (decide (l < length (heap w))) as [Hl|Hl].
  - by rewrite list_lookup_insert_eq.
  - rewrite list_insert_ge by lia.
    assert (deref w l = []) as ->.
    { unfold deref. rewrite lookup_ge_None_2 by lia. done. }
    rewrite normSteps_unallocated. simpl. rewrite lookup_ge_None_2 by lia. done.
Qed.

Lemma normalize_run (l : loc) (parsing : value) (w : world) :
  normalize l parsing w =
    if hasKeyObject parsing then
      let st := normSteps parsing (Object_keys parsing) (deref w l, []) in
      (Obj.spread (Obj.spread [] st.1) st.2,
       {| this := this w; heap := <[l := st.1]> (heap w) |})
    else (deref w l, w).
Proof.
  unfold normalize. destruct (hasKeyObject parsing); [|done].
  unfold bind. rewrite normalizeKeys_run. simpl. unfold read, ret; simpl.
  by rewrite deref_normSteps.
Qed.

End StoreFacts.

(** ** [CreateOptions] as one step on the store *)

Module OptionsFacts.
Import ObjFacts SortFacts StoreFacts.

(** lines 95-98 on the store *)
Definition setHeaders (api : Api) (h : list obj) : list obj :=
  let h' :=
    <[Headers api := Obj.set (default [] (h !! Headers api)) "Host"
                       (VStr (Host (Area api)))]> h in
  if decide (Method api = "POST")
  then <[Headers api := Obj.set (default [] (h' !! Headers api)) "Content-Type"
                          (VStr "application/x-www-form-urlencoded")]> h'
  else h'.

Lemma normalize_this l parsing w : this (normalize l parsing w).2 = this w.
Proof. rewrite normalize_run. by destruct (hasKeyObject parsing). Qed.

Lemma normalize_length l parsing w :
  length (heap (normalize l parsing w).2) = length (heap w).
Proof.
  rewrite normalize_run. destruct (hasKeyObject parsing); [|done].
  simpl. by rewrite length_insert.
Qed.

Lemma CreateOptions_run `{Crypto} l parsing Timestamp (w : world) :
  CreateOptions l parsing Timestamp w =
    let nw := normalize l parsing w in
    let api := this w in
    let P := PreParams api Timestamp nw.1 in
    let pre := length (heap w) in
    ({| method := Method api;
        url := "https://" +:+ Host (Area api) +:+ "/" +:+ RemotePath api;
        headers := Headers api;
        qs := if decide (Method api = "GET") then Some pre else None;
        form := if decide (Method api = "GET") then None else Some pre |},
     {| this := api;
        heap := setHeaders api
                  (heap nw.2 ++ [Obj.set P "Signature" (VStr (Signature api P))]) |}).
Proof.
  unfold CreateOptions, bind.
  pose proof (normalize_this l parsing w) as Hthis.
  pose proof (normalize_length l parsing w) as Hlen.
  destruct (normalize l parsing w) as [params' w1]; simpl in *.
  unfold self, alloc, assign_prop, bind, read, write, ret, setHeaders; simpl.
  rewrite Hthis, Hlen.
  destruct (decide (Method (this w) = "POST")); simpl; done.
Qed.

(** the store is well formed when the client's [Headers] is an object of it *)
Definition wf (w : world) : Prop := Headers (this w) < length (heap w).

Lemma setHeaders_other api (h : list obj) (l : loc) :
  l ≠ Headers api -> setHeaders api h !! l = h !! l.
Proof.
  intros Hne. unfold setHeaders.
  case_decide; by rewrite !list_lookup_insert_ne.
Qed.

(** the parameters a request carries are the merged map with its signature *)
Lemma sent_CreateOptions `{Crypto} l parsing Timestamp (w : world) :
  wf w ->
  sent (CreateOptions l parsing Timestamp w) =
    let P := PreParams (this w) Timestamp (normalize l parsing w).1 in
    Obj.set P "Signature" (VStr (Signature (this w) P)).
Proof.
  intros Hwf. rewrite CreateOptions_run. unfold sent, deref; cbn -[normalize].
  assert (Hlook : forall X : obj,
    default [] (setHeaders (this w) (heap (normalize l parsing w).2 ++ [X])
                  !! length (heap w)) = X).
  { intros X. rewrite setHeaders_other by (unfold wf in Hwf; lia).
    rewrite <- (normalize_length l parsing w).
    by rewrite list_lookup_middle. }
  destruct (decide (Method (this w) = "GET")); apply Hlook.
Qed.

End OptionsFacts.

(** ** The merged map [PreParams] *)

Module MergeFacts.
Import ObjFacts SortFacts StoreFacts OptionsFacts.

(** two objects with the same properties, each with distinct keys *)
Definition same (o1 o2 : obj) : Prop :=
  NoDup (Obj.keys o1) /\ NoDup (Obj.keys o2) /\
  forall k, Obj.lookup o1 k = Obj.lookup o2 k.

Lemma same_get o1 o2 k : same o1 o2 -> Obj.get o1 k = Obj.get o2 k.
Proof. intros (_ & _ & Heq). unfold Obj.get. by rewrite Heq. Qed.

Lemma same_delete o1 o2 k : same o1 o2 -> same (Obj.delete o1 k) (Obj.delete o2 k).
Proof.
  intros (Hn1 & Hn2 & Heq). repeat split; try by apply NoDup_keys_delete.
  intros k'. by rewrite !lookup_delete, Heq.
Qed.



Lemma normStep_same parsing key (p1 p2 a : obj) :
  same p1 p2 ->
  exists q1 q2 b,
    normStep parsing (p1, a) key = (q1, b) /\
    normStep parsing (p2, a) key = (q2, b) /\ same q1 q2.
Proof.
  intros Hs. unfold normStep; simpl. rewrite <- (same_get p1 p2 key Hs).
  destruct (isArray (Obj.get p1 key)); eauto 8 using same_delete.
Qed.

Lemma normSteps_same parsing ks : forall (p1 p2 a : obj),
  same p1 p2 ->
  same (normSteps parsing ks (p1, a)).1 (normSteps parsing ks (p2, a)).1 /\
  (normSteps parsing ks (p1, a)).2 = (normSteps parsing ks (p2, a)).2.
Proof.
  induction ks as [|key ks IH]; intros p1 p2 a Hs; [done|].
  unfold normSteps in *. simpl.
  destruct (normStep_same parsing key p1 p2 a Hs) as (q1 & q2 & b & -> & -> & Hq).
  by apply IH.
Qed.




End MergeFacts.

(** ** Canonicalisation and signing *)

(** a stand-in for the runtime's digest that shows what is signed *)
Definition plainCrypto : Crypto :=
  {| hmac_sha256 key msg := key +:+ ":" +:+ msg; base64 s := s |}.


(** what [sortObject] keeps of a property *)
Definition dropNil (ov : option value) : option value :=
  match ov with
  | Some v => if isNil v then None else Some v
  | None => None
  end.

Import ObjFacts OrderFacts SortFacts StoreFacts OptionsFacts MergeFacts.


Definition orderClient : Api :=
  {| Path := "Orders"; Version := "2013-09-01"; Method := "GET";
     Action := "ListOrders";
     Setting := {| IsMerchant := false; Convert := "JSON"; Retrying := 2;
                   Timeout := 30; Throttled := 5 |};
     Headers := 0; Area := CreateArea US;
     Access := {| AWSAccessKeyId := "AKIDEXAMPLE"; AWSAccessSecret := "secret" |};
     Seller := {| SellerId := "MOCK_ID"; MWSAuthToken := "MOCK_TOKEN";
                  SellerArea := US |} |}.


(** the form encoding as the specification words it: like
    [QueryString.stringify], but with a space written as [+]; and the order
    of the keys as it words it: ascending by byte, which is by code point *)
Module Claimed.






End Claimed.


Lemma append_assoc (s1 s2 s3 : string) : (s1 +:+ s2) +:+ s3 = s1 +:+ s2 +:+ s3.
Proof.
  induction s1 as [|c s1 IH]; [done|].
  change (String c ((s1 +:+ s2) +:+ s3) = String c (s1 +:+ s2 +:+ s3)).
  by rewrite IH.
Qed.


Definition noteWorld : world :=
  {| this := orderClient; heap := [[]; [("SellerNote", VStr "a b")]] |}.



Lemma NoDup_keys_normalize l parsing (w : world) :
  NoDup (Obj.keys (deref w l)) -> NoDup (Obj.keys (normalize l parsing w).1).
Proof.
  intros Hnd. rewrite normalize_run.
  destruct (hasKeyObject parsing); [|done].
  apply NoDup_keys_spread, NoDup_keys_spread, NoDup_nil. done.
Qed.



(** ** The normaliser: arrays become indexed keys *)

Module NormFacts.
Import ObjFacts SortFacts StoreFacts OptionsFacts MergeFacts.









Lemma get_delete_ne (p : obj) key k : k <> key -> Obj.get (Obj.delete p key) k = Obj.get p k.
Proof. intros Hne. unfold Obj.get. by rewrite lookup_delete, decide_False. Qed.


(** what the loop leaves of the caller's map: the mapped keys that held an
    array are gone, the rest is as it was *)
Lemma lookup_normSteps_params parsing ks : forall (p a : obj) k',
  Obj.lookup (normSteps parsing ks (p, a)).1 k' =
    if decide (k' ∈ ks /\ isArray (Obj.get p k') = true) then None
    else Obj.lookup p k'.
Proof.
  induction ks as [|key ks IH]; intros p a k'.
  - destruct (decide _) as [[Hin _]|_]; [by apply elem_of_nil in Hin | done].
  - unfold normSteps in *. cbn [fold_left]. unfold normStep at 2. cbn [fst snd].
    destruct (isArray (Obj.get p key)) eqn:Harr; rewrite IH.
    + destruct (decide (k' = key)) as [->|Hne].
      * rewrite (decide_True (P := key ∈ key :: ks /\ _)) by (split; [left|done]).
        destruct (decide _); [done|]. by rewrite lookup_delete, decide_True.
      * rewrite get_delete_ne, lookup_delete, (decide_False (P := key = k')) by done.
        apply decide_ext. rewrite elem_of_cons. naive_solver.
    + apply decide_ext. rewrite elem_of_cons. split; [naive_solver|].
      intros [[->|Hin] Ha]; [congruence | done].
Qed.

Lemma normSteps_cons parsing key ks (st : obj * obj) :
  normSteps parsing (key :: ks) st = normSteps parsing ks (normStep parsing st key).
Proof. done. Qed.

Lemma normStep_array parsing (p a : obj) key elems :
  Obj.get p key = VArr elems ->
  normStep parsing (p, a) key =
    (Obj.delete p key, expand a (prop parsing key) elems).
Proof. intros Hk. unfold normStep. simpl. by rewrite Hk. Qed.

Lemma normStep_scalar parsing (p a : obj) key :
  isArray (Obj.get p key) = false -> normStep parsing (p, a) key = (p, a).
Proof. intros Hk. unfold normStep. simpl. by rewrite Hk. Qed.




End NormFacts.

Import NormFacts.

Definition idsWorld : world :=
  {| this := orderClient; heap := [[]; [("Ids", VArr [VStr "a"; VStr "b"])]] |}.




(** ** What [CreateOptions] changes: the caller's map, the client, the URL *)

Definition orderIdsWorld : world :=
  {| this := orderClient; heap := [[]; [("AmazonOrderIds", VArr [VStr "id"])]] |}.

(** C3 fails on the code: [delete params[key]] runs on the caller's own
    object, before [params] is rebound to the merged copy.  After
    [GetOrder]'s call the caller's map has lost [AmazonOrderIds]. *)
Theorem CreateOptions_deletes_from_caller_map `{Crypto} (Timestamp : string) :
  let parsing := VObj [("AmazonOrderIds", VStr "AmazonOrderId.Id.")] in
  let w' := (CreateOptions 1 parsing Timestamp orderIdsWorld).2 in
  deref orderIdsWorld 1 = [("AmazonOrderIds", VArr [VStr "id"])] /\
  deref w' 1 = [].
Proof.
  cbv zeta. rewrite CreateOptions_run. split; [done|].
  unfold deref. cbn -[normalize PreParams Signature setHeaders Obj.set].
  rewrite setHeaders_other by done. by vm_compute.
Qed.







(** C6 fails on the code: [RemotePath] starts with a slash and the URL
    template adds its own, so the URL has two slashes after the host. *)
Theorem CreateOptions_url_double_slash `{Crypto} (w : world) (l : loc)
    (parsing : value) (Timestamp : string) :
  url (CreateOptions l parsing Timestamp w).1 =
    "https://" +:+ Host (Area (this w)) +:+ "//" +:+ Path (this w) +:+ "/"
    +:+ Version (this w) /\
  url (CreateOptions 1 VUndefined Timestamp noteWorld).1 =
    "https://mws.amazonservices.com//Orders/2013-09-01" /\
  url (CreateOptions 1 VUndefined Timestamp noteWorld).1 <>
    "https://" +:+ Host (Area orderClient) +:+ "/" +:+ Path orderClient +:+ "/"
    +:+ Version orderClient.
Proof.
  rewrite !CreateOptions_run. cbn -[normalize String.append]. by vm_compute.
Qed.

Lemma normalize_heap_other l parsing (w : world) (l' : loc) :
  l' <> l -> heap (normalize l parsing w).2 !! l' = heap w !! l'.
Proof.
  intros Hne. rewrite normalize_run.
  destruct (hasKeyObject parsing); [|done].
  simpl. by rewrite list_lookup_insert_ne.
Qed.

Lemma setHeaders_lookup api (h : list obj) (hdr : obj) :
  h !! Headers api = Some hdr ->
  setHeaders api h !! Headers api =
    Some (let hdr' := Obj.set hdr "Host" (VStr (Host (Area api))) in
          if decide (Method api = "POST")
          then Obj.set hdr' "Content-Type" (VStr "application/x-www-form-urlencoded")
          else hdr').
Proof.
  intros Hh. pose proof (lookup_lt_Some _ _ _ Hh) as Hlt.
  unfold setHeaders. rewrite Hh. simpl.
  destruct (decide (Method api = "POST")).
  - rewrite !list_lookup_insert_eq by (by rewrite ?length_insert). done.
  - by rewrite list_lookup_insert_eq.
Qed.

(** C9, amended.  [CreateOptions] leaves the fields of the client as they
    are, [Headers] being the same reference, but it writes into the object
    [Headers] refers to: [Host] becomes the host of the area and, for POST,
    [Content-Type] the form type; the other headers stay.  [ConfigureArea]
    replaces [Area] and nothing else. *)
Theorem CreateOptions_client_frame `{Crypto} (w : world) (l : loc)
    (parsing : value) (Timestamp : string) (hdr : obj) :
  let api := this w in
  let w' := (CreateOptions l parsing Timestamp w).2 in
  heap w !! Headers api = Some hdr -> l <> Headers api ->
  this w' = this w /\
  heap w' !! Headers api =
    Some (let hdr' := Obj.set hdr "Host" (VStr (Host (Area api))) in
          if decide (Method api = "POST")
          then Obj.set hdr' "Content-Type" (VStr "application/x-www-form-urlencoded")
          else hdr') /\
  (forall k, k <> "Host" -> k <> "Content-Type" ->
     Obj.lookup (deref w' (Headers api)) k = Obj.lookup hdr k) /\
  (forall area,
     (ConfigureArea area w).2 =
       {| this := {| Path := Path api; Version := Version api;
                     Method := Method api; Action := Action api;
                     Setting := Setting api; Headers := Headers api;
                     Area := CreateArea area; Access := Access api;
                     Seller := Seller api |};
          heap := heap w |}).
Proof.
  intros api w' Hh Hne.
  assert (Hthis : this w' = this w)
    by (unfold w'; by rewrite CreateOptions_run).
  assert (Hset : heap w' !! Headers api =
          Some (let hdr' := Obj.set hdr "Host" (VStr (Host (Area api))) in
                if decide (Method api = "POST")
                then Obj.set hdr' "Content-Type"
                       (VStr "application/x-www-form-urlencoded")
                else hdr')).
  { unfold w'. rewrite CreateOptions_run. cbn [snd heap].
    apply setHeaders_lookup, lookup_app_l_Some.
    rewrite normalize_heap_other by done. exact Hh. }
  split; [done|]. split; [exact Hset|]. split; [|done].
  intros k Hk1 Hk2. unfold deref. rewrite Hset. cbn [default id].
  destruct (decide (Method api = "POST"));
    rewrite !lookup_set, !decide_False by done; done.
Qed.

Lemma CreateOptions_client_frame_witness :
  this (@CreateOptions plainCrypto 1 VUndefined "2020-01-01T00:00:00.000Z"
          noteWorld).2 = orderClient /\
  heap (@CreateOptions plainCrypto 1 VUndefined "2020-01-01T00:00:00.000Z"
          noteWorld).2 !! 0 = Some [("Host", VStr "mws.amazonservices.com")].
Proof.
  pose proof (@CreateOptions_client_frame plainCrypto noteWorld 1 VUndefined
                "2020-01-01T00:00:00.000Z" []) as Hthm.
  destruct Hthm as (Hthis & Hhdr & _).
  - reflexivity.
  - simpl. lia.
  - split; [exact Hthis | exact Hhdr].
Defined.

(** C9 as stated fails: the object behind [Headers] is not the same after
    the call. *)
Lemma CreateOptions_writes_Headers_counterexample :
  deref noteWorld (Headers (this noteWorld)) = [] /\
  deref (@CreateOptions plainCrypto 1 VUndefined "2020-01-01T00:00:00.000Z"
           noteWorld).2 (Headers (this noteWorld))
    = [("Host", VStr "mws.amazonservices.com")] /\
  deref (@CreateOptions plainCrypto 1 VUndefined "2020-01-01T00:00:00.000Z"
           noteWorld).2 (Headers (this noteWorld))
    <> deref noteWorld (Headers (this noteWorld)).
Proof. vm_compute. repeat split; discriminate. Qed.

(** ** The classification of a response *)

(** the pairs of status and body marker, in the order of the code *)
Definition markers : list (Z * string * exn) :=
  [(400%Z, "InputStreamDisconnected", InputStreamDisconnected);
   (400%Z, "InvalidParameterValue", InvalidParameterValue);
   (401%Z, "AccessDenied", AccessDenied);
   (403%Z, "InvalidAccessKeyId", InvalidAccessKeyId);
   (403%Z, "SignatureDoesNotMatch", SignatureDoesNotMatch);
   (404%Z, "InvalidAddress", InvalidAddress);
   (500%Z, "InternalError", InternalError);
   (503%Z, "QuotaExceeded", QuotaExceeded);
   (503%Z, "RequestThrottled", RequestThrottled)].

Definition matches (r : transport) (m : Z * string * exn) : bool :=
  (statusCode r =? m.1.1)%Z && RegExp.contains m.1.2 (body r).

(** C4, amended.  [Requesting] ends in exactly one way, the first that
    applies: a transport error is [RequestTimeoutError] when its code is
    ESOCKETTIMEDOUT or ETIMEDOUT and [LocalRequestError] otherwise; else the
    first pair of status and marker, in the listed order, that matches gives
    its error; else an error envelope in the body gives
    [UndefinedRequestError]; else the body is the result, whatever the
    status.  So success means: no transport error, no matching pair and no
    envelope. *)
Theorem Requesting_first_match (r : transport) :
  Requesting r =
    match error r with
    | Some e =>
        Reject (if isTimeoutCode (code e) then RequestTimeoutError
                else LocalRequestError)
    | None =>
        match List.find (matches r) markers with
        | Some m => Reject m.2
        | None =>
            if RegExp.envelope (body r) then Reject UndefinedRequestError
            else Resolve (body r)
        end
    end /\
  (forall b, Requesting r = Resolve b <->
     error r = None /\ List.find (matches r) markers = None /\
     RegExp.envelope (body r) = false /\ b = body r) /\
  isTimeoutCode (Some "ESOCKETTIMEDOUT") = true /\
  isTimeoutCode (Some "ETIMEDOUT") = true.
Proof.
  assert (Heq : Requesting r =
    match error r with
    | Some e =>
        Reject (if isTimeoutCode (code e) then RequestTimeoutError
                else LocalRequestError)
    | None =>
        match List.find (matches r) markers with
        | Some m => Reject m.2
        | None =>
            if RegExp.envelope (body r) then Reject UndefinedRequestError
            else Resolve (body r)
        end
    end).
  { unfold Requesting. destruct (error r) as [e|]; [by destruct (isTimeoutCode _)|].
    unfold markers, matches. cbn [List.find fst snd].
    repeat (destruct (_ && _); [reflexivity|]). reflexivity. }
  split; [exact Heq|]. split; [|done].
  intros b. rewrite Heq. destruct (error r) as [e|]; [naive_solver|].
  destruct (List.find (matches r) markers) as [m|]; [naive_solver|].
  destruct (RegExp.envelope (body r)); naive_solver.
Qed.

(** C4 as stated fails: a 404 without marker and envelope resolves, though
    its status is not 2xx; and a 403 body with both markers is not
    [SignatureDoesNotMatch]. *)
Lemma Requesting_status_counterexample :
  Requesting {| error := None; statusCode := 404; body := "Not Found" |}
    = Resolve "Not Found" /\
  Requesting {| error := None; statusCode := 403;
                body := "SignatureDoesNotMatch InvalidAccessKeyId" |}
    = Reject InvalidAccessKeyId.
Proof. by vm_compute. Qed.

(** ** The decoder *)



(** ** The retry loop *)

Module RetryFacts.

(** the three outcomes the loop retries *)
Definition retryable (r : settled value) : bool :=
  match r with
  | Reject RequestTimeoutError | Reject QuotaExceeded | Reject RequestThrottled => true
  | _ => false
  end.

(** the sleep that follows an attempt: none after a timeout, an hour after
    [QuotaExceeded], the configured back-off after [RequestThrottled] *)
Definition pause (api : Api) (r : settled value) : list event :=
  match r with
  | Reject QuotaExceeded => [Sleep 3600]
  | Reject RequestThrottled => [Sleep (Throttled (Setting api))]
  | _ => []
  end.

(** the number of requests in a trace *)
Fixpoint sends (tr : list event) : nat :=
  match tr with
  | [] => 0
  | Send _ :: tr' => S (sends tr')
  | Sleep _ :: tr' => sends tr'
  end.

(** the trace of [m] attempts from index [i] on *)
Definition rounds `{XmlParser} (api : Api) (options : Options)
    (net : nat -> transport) (i m : nat) : list event :=
  flat_map (fun j => Send options :: pause api (tryRequest api (net j))) (seq i m).

Lemma sends_pause api r : sends (pause api r) = 0.
Proof. by destruct r as [v|[]]. Qed.

Lemma sends_app tr1 tr2 : sends (tr1 ++ tr2) = sends tr1 + sends tr2.
Proof. induction tr1 as [|[o|s] tr1 IH]; simpl; by rewrite ?IH. Qed.

Lemma sends_rounds `{XmlParser} api options net m : forall i,
  sends (rounds api options net i m) = m.
Proof.
  unfold rounds. induction m as [|m IH]; intros i; simpl; [done|].
  by rewrite sends_app, sends_pause, IH.
Qed.

Lemma attempts_spec `{XmlParser} (api : Api) (options : Options)
    (net : nat -> transport) (n : nat) : forall i,
  exists m, m <= n /\
    (attempts api options net n i).2 = rounds api options net i m /\
    ((0 < m /\
      (forall j, i <= j < i + m - 1 -> retryable (tryRequest api (net j)) = true) /\
      retryable (tryRequest api (net (i + m - 1))) = false /\
      (attempts api options net n i).1 = tryRequest api (net (i + m - 1))) \/
     (m = n /\
      (forall j, i <= j < i + n -> retryable (tryRequest api (net j)) = true) /\
      (attempts api options net n i).1 = Reject LocalExceededError)).
Proof.
  induction n as [|n IH]; intros i.
  - exists 0. split; [done|]. split; [done|]. right. repeat split; intros; lia.
  - assert (Hstop : retryable (tryRequest api (net i)) = false ->
              attempts api options net (S n) i = (tryRequest api (net i), [Send options])).
    { simpl. by destruct (tryRequest api (net i)) as [v|[]]. }
    assert (Hgo : retryable (tryRequest api (net i)) = true ->
              attempts api options net (S n) i =
                ((attempts api options net n (S i)).1,
                 Send options :: pause api (tryRequest api (net i))
                   ++ (attempts api options net n (S i)).2)).
    { simpl. destruct (tryRequest api (net i)) as [v|[]]; try done;
        by destruct (attempts api options net n (S i)). }
    destruct (retryable (tryRequest api (net i))) eqn:Hr.
    + rewrite Hgo by done. destruct (IH (S i)) as (m & Hm & Htr & Hres).
      exists (S m). split; [lia|]. split.
      { simpl. unfold rounds in *. simpl. by rewrite Htr. }
      assert (Hj : forall j bound, i <= j < bound ->
                (forall j', S i <= j' < bound -> retryable (tryRequest api (net j')) = true) ->
                retryable (tryRequest api (net j)) = true).
      { intros j bound Hjb Hall. destruct (decide (j = i)) as [->|]; [done|].
        apply Hall. lia. }
      destruct Hres as [(Hpos & Hall & Hlast & Hval)|(-> & Hall & Hval)].
      * left. replace (i + S m - 1) with (S i + m - 1) by lia.
        split; [lia|]. split; [|done].
        intros j Hjb. apply (Hj j (S i + m - 1)); [lia|done].
      * right. split; [done|]. split; [|done].
        intros j Hjb. apply (Hj j (S i + n)); [lia|done].
    + rewrite Hstop by done. exists 1. split; [lia|]. split.
      { unfold rounds. simpl. destruct (tryRequest api (net i)) as [v|[]]; done. }
      left. replace (i + 1 - 1) with i by lia. repeat split; [lia| |done].
      intros j Hjb. lia.
Qed.

End RetryFacts.
Import RetryFacts.

(** C2.  With [Retrying = R], [CreateRequest] sends at most [R + 1]
    requests.  Its trace is the sequence of its attempts, each a request
    followed by nothing after a timeout, by a sleep of 3600 seconds after
    [QuotaExceeded] and by a sleep of the configured back-off after
    [RequestThrottled].  The first attempt that ends otherwise ends the
    call, with its result or with its own error.  When all [R + 1] attempts
    end in one of the three, the call fails with [LocalExceededError]. *)
Theorem CreateRequest_retry_policy `{XmlParser} (api : Api) (options : Options)
    (net : nat -> transport) :
  let R := Retrying (Setting api) in
  let outcome i := tryRequest api (net i) in
  let run := CreateRequest api options net in
  exists n,
    n <= R + 1 /\ sends run.2 = n /\
    run.2 = flat_map (fun i => Send options :: pause api (outcome i)) (seq 0 n) /\
    pause api (Reject RequestTimeoutError) = [] /\
    pause api (Reject QuotaExceeded) = [Sleep 3600] /\
    pause api (Reject RequestThrottled) = [Sleep (Throttled (Setting api))] /\
    ((0 < n /\
      (forall i, i < n - 1 -> retryable (outcome i) = true) /\
      retryable (outcome (n - 1)) = false /\
      run.1 = outcome (n - 1)) \/
     (n = R + 1 /\
      (forall i, i < n -> retryable (outcome i) = true) /\
      run.1 = Reject LocalExceededError)).
Proof.
  intros R outcome run.
  destruct (attempts_spec api options net (R + 1) 0) as (n & Hn & Htr & Hres).
  exists n. split; [done|]. split.
  { unfold run, CreateRequest. fold R. rewrite Htr. apply sends_rounds. }
  split; [exact Htr|]. do 3 (split; [done|]).
  destruct Hres as [(Hpos & Hall & Hlast & Hval)|(-> & Hall & Hval)].
  - left. split; [done|]. split; [|done]. intros i Hi. apply Hall. lia.
  - right. split; [done|]. split; [|done]. intros i Hi. apply Hall. lia.
Qed.

(** ** The scenarios of the specification *)

Definition noParser : XmlParser := {| xmlParser := fun _ => VObj [] |}.

Definition rawClient (retries : nat) : Api :=
  {| Path := "Orders"; Version := "2013-09-01"; Method := "GET";
     Action := "ListOrders";
     Setting := {| IsMerchant := false; Convert := "XML"; Retrying := retries;
                   Timeout := 30; Throttled := 5 |};
     Headers := 0; Area := CreateArea US;
     Access := {| AWSAccessKeyId := "AKIDEXAMPLE"; AWSAccessSecret := "secret" |};
     Seller := {| SellerId := "MOCK_ID"; MWSAuthToken := "MOCK_TOKEN";
                  SellerArea := US |} |}.

Definition someOptions : Options :=
  {| method := "GET"; url := "https://mws.amazonservices.com//Orders/2013-09-01";
     headers := 0; qs := Some 2; form := None |}.

Definition timedOut : transport :=
  {| error := Some {| code := Some "ETIMEDOUT" |}; statusCode := 0;
     body := EmptyString |}.

Definition answered (status : Z) (text : string) : transport :=
  {| error := None; statusCode := status; body := text |}.

(** two timeouts, then an answer: with two retries the third attempt succeeds *)
Example two_timeouts_then_success :
  @CreateRequest noParser (rawClient 2) someOptions
    (fun i => if decide (i < 2) then timedOut else answered 200 "<ok/>")
  = (Resolve (VStr "<ok/>"),
     [Send someOptions; Send someOptions; Send someOptions]).
Proof. reflexivity. Qed.

(** two timeouts with one retry: the retries are exhausted *)
Example two_timeouts_one_retry :
  @CreateRequest noParser (rawClient 1) someOptions (fun _ => timedOut)
  = (Reject LocalExceededError, [Send someOptions; Send someOptions]).
Proof. reflexivity. Qed.

(** a throttled answer is followed by the back-off, a quota answer by an hour *)
Example throttled_then_quota :
  @CreateRequest noParser (rawClient 2) someOptions
    (fun i => match i with
              | 0 => answered 503 "<Code>RequestThrottled</Code>"
              | 1 => answered 503 "<Code>QuotaExceeded</Code>"
              | _ => answered 200 "<ok/>"
              end)
  = (Resolve (VStr "<ok/>"),
     [Send someOptions; Sleep 5; Send someOptions; Sleep 3600; Send someOptions]).
Proof. reflexivity. Qed.

(** an error envelope under status 200 is an [UndefinedRequestError], and it
    is not retried *)
Example envelope_under_200 :
  @CreateRequest noParser (rawClient 2) someOptions
    (fun _ => answered 200
       "<ErrorResponse xmlns='x'><Error><Code>Other</Code></Error></ErrorResponse>")
  = (Reject UndefinedRequestError, [Send someOptions]).
Proof. reflexivity. Qed.

Example area_US :
  CreateArea US = {| Id := "ATVPDKIKX0DER"; Host := "mws.amazonservices.com" |}.
Proof. reflexivity. Qed.

(** * The rest of CoreHelpers.ts and Core.ts *)

(** ** CoreHelpers.ts: [splitArray] *)

Module Chunks.

(** [ts.slice(start, end)]: a negative index counts from the end, both are
    clamped to the array *)
Definition slice {A} (ts : list A) (start stop : Z) : list A :=
  let len := Z.of_nat (length ts) in
  let rel x := if (x <? 0)%Z then Z.max (len + x) 0 else Z.min x len in
  take (Z.to_nat (rel stop - rel start)) (drop (Z.to_nat (rel start)) ts).

(** the [for] loop at index [i] with the chunks [rs] pushed so far; [None]
    when [fuel] turns do not end it *)
Fixpoint splitLoop {A} (fuel : nat) (ts : list A) (size i : Z)
    (rs : list (list A)) : option (list (list A)) :=
  if (i <? Z.of_nat (length ts))%Z then
    match fuel with
    | 0 => None
    | S fuel' => splitLoop fuel' ts size (i + size) (rs ++ [slice ts i (i + size)])
    end
  else Some rs.

(** [size] is an integral number: with a fraction the index is no integer,
    [slice] rounds its bounds, and the sums are rounded as floating-point
    numbers are, all of which this model leaves out *)
Definition splitArray {A} (fuel : nat) (arr : list A) (size : Z) : option (list (list A)) :=
  splitLoop fuel arr size 0 [].

Lemma slice_inside {A} (ts : list A) (i size : Z) :
  (0 <= i)%Z -> (0 < size)%Z -> (i < Z.of_nat (length ts))%Z ->
  slice ts i (i + size) = take (Z.to_nat size) (drop (Z.to_nat i) ts).
Proof.
  intros Hi Hs Hlt. unfold slice.
  rewrite (proj2 (Z.ltb_ge i 0)), (proj2 (Z.ltb_ge (i + size) 0)) by lia.
  rewrite (Z.min_l i) by lia.
  destruct (Z.min_spec (i + size) (Z.of_nat (length ts))) as [[Hle ->]|[Hle ->]].
  - by replace (i + size - i)%Z with size by lia.
  - rewrite !take_ge; [done|rewrite length_drop; lia..].
Qed.

Lemma splitLoop_spec {A} (ts : list A) (size : Z) : forall fuel i rs,
  (0 < size)%Z -> (0 <= i)%Z -> (Z.of_nat (length ts) - i <= Z.of_nat fuel)%Z ->
  exists cs,
    splitLoop fuel ts size i rs = Some (rs ++ cs) /\
    concat cs = drop (Z.to_nat i) ts /\
    Forall (fun c => 0 < length c /\ (Z.of_nat (length c) <= size)%Z) cs /\
    (forall j c, cs !! j = Some c -> j + 1 < length cs ->
       Z.of_nat (length c) = size) /\
    Z.of_nat (length cs) =
      ((Z.max (Z.of_nat (length ts) - i) 0 + size - 1) / size)%Z.
Proof.
  induction fuel as [|fuel IH]; intros i rs Hs Hi Hfuel.
  - exists []. simpl. rewrite (proj2 (Z.ltb_ge _ _)) by lia.
    rewrite app_nil_r. rewrite drop_ge by lia.
    repeat split; [done|intros j c Hj; by rewrite lookup_nil in Hj|].
    rewrite Z.max_r by lia. simpl. symmetry. apply Z.div_small. lia.
  - simpl. destruct (Z.ltb_spec i (Z.of_nat (length ts))) as [Hlt|Hge].
    + destruct (IH (i + size)%Z (rs ++ [slice ts i (i + size)]) Hs) as
        (cs & Hrun & Hcat & Hall & Hfull & Hlen); [lia..|].
      exists (slice ts i (i + size) :: cs). rewrite Hrun, <- app_assoc. simpl.
      rewrite slice_inside by lia.
      set (d := drop (Z.to_nat i) ts) in *.
      assert (Hd : Z.of_nat (length d) = (Z.of_nat (length ts) - i)%Z)
        by (unfold d; rewrite length_drop; lia).
      split; [done|]. split.
      { rewrite Hcat. replace (Z.to_nat (i + size)) with (Z.to_nat i + Z.to_nat size) by lia.
        rewrite <- drop_drop. fold d. apply take_drop. }
      split.
      { constructor; [|done]. rewrite length_take. lia. }
      split.
      { intros [|j] c Hj Hlast; simpl in Hj, Hlast.
        - injection Hj as <-. rewrite length_take.
          assert (Hne : (0 < Z.of_nat (length ts) - (i + size))%Z).
          { destruct (Z.le_gt_cases (Z.of_nat (length ts) - (i + size)) 0) as [Hle|]; [|done].
            rewrite Z.max_r, Z.div_small in Hlen by lia. lia. }
          lia.
        - apply (Hfull j c Hj). lia. }
      simpl length. rewrite Nat2Z.inj_succ, Hlen.
      rewrite (Z.max_l (Z.of_nat (length ts) - i)) by lia.
      destruct (Z.max_spec (Z.of_nat (length ts) - (i + size)) 0) as [[Hm ->]|[Hm ->]].
      * rewrite (Z.div_small (0 + size - 1)) by lia.
        replace (Z.succ 0) with 1%Z by lia.
        apply (Z.div_unique_pos _ _ 1 (Z.of_nat (length ts) - i - 1)); lia.
      * replace (Z.of_nat (length ts) - i + size - 1)%Z
          with ((Z.of_nat (length ts) - (i + size) + size - 1) + 1 * size)%Z by lia.
        rewrite Z.div_add by lia. lia.
    + exists []. rewrite app_nil_r, drop_ge by lia.
      repeat split; [done|intros j c Hj; by rewrite lookup_nil in Hj|].
      rewrite Z.max_r by lia. simpl. symmetry. apply Z.div_small. lia.
Qed.

Lemma splitLoop_mono {A} (ts : list A) (size : Z) : forall fuel fuel' i rs r,
  fuel <= fuel' -> splitLoop fuel ts size i rs = Some r ->
  splitLoop fuel' ts size i rs = Some r.
Proof.
  induction fuel as [|fuel IH]; intros fuel' i rs r Hle; simpl.
  - destruct (Z.ltb_spec i (Z.of_nat (length ts))) as [Hlt|Hge]; [done|].
    intros <-. destruct fuel'; simpl; by rewrite (proj2 (Z.ltb_ge _ _)).
  - destruct fuel' as [|fuel']; [lia|]. simpl.
    destruct (Z.ltb_spec i (Z.of_nat (length ts))); [|done].
    apply IH. lia.
Qed.


End Chunks.

(** X1.  For a [size] that is a positive integer the loop of [splitArray]
    ends, within as many turns as the array is long, and the chunks it
    returns are the array cut in order: their concatenation is the array,
    none is empty or longer than [size], all but the last have [size]
    elements, and there are [ceil (length / size)] of them.  (A [size] with
    a fraction is not covered.) *)
Theorem splitArray_chunks {A} (arr : list A) (size : Z) :
  (0 < size)%Z ->
  exists chunks,
    (forall fuel, length arr <= fuel -> Chunks.splitArray fuel arr size = Some chunks) /\
    concat chunks = arr /\
    Forall (fun c => 0 < length c /\ (Z.of_nat (length c) <= size)%Z) chunks /\
    (forall j c, chunks !! j = Some c -> j + 1 < length chunks ->
       Z.of_nat (length c) = size) /\
    Z.of_nat (length chunks) = ((Z.of_nat (length arr) + size - 1) / size)%Z.
Proof.
  intros Hs.
  destruct (Chunks.splitLoop_spec arr size (length arr) 0 [] Hs)
    as (cs & Hrun & Hcat & Hall & Hfull & Hlen); [lia..|].
  exists cs. split; [|split; [done|split; [done|split; [done|]]]].
  - intros fuel Hfuel. by apply (Chunks.splitLoop_mono arr size (length arr)).
  - rewrite Hlen. f_equal. lia.
Qed.

Lemma splitArray_chunks_witness :
  Chunks.splitArray 5 [1; 2; 3; 4; 5] 2 = Some [[1; 2]; [3; 4]; [5]].
Proof.
  destruct (splitArray_chunks [1; 2; 3; 4; 5] 2) as (chunks & Hrun & _); [lia|].
  rewrite (Hrun 5) by (simpl; lia).
  pose proof (Hrun 5 ltac:(simpl; lia)) as Hc. vm_compute in Hc.
  injection Hc as <-. reflexivity.
Defined.



(** ** Strings and patterns *)

Module StringFacts.

Lemma app_nil_l (s : string) : EmptyString +:+ s = s.
Proof. done. Qed.

Lemma app_cons (c : ascii) (s t : string) : String c s +:+ t = String c (s +:+ t).
Proof. done. Qed.

Lemma app_nil_r (s : string) : s +:+ EmptyString = s.
Proof. induction s as [|c s IH]; [done|]. by rewrite app_cons, IH. Qed.

Lemma prefix_spec (p s : string) :
  String.prefix p s = true <-> exists r, s = p +:+ r.
Proof.
  revert s. induction p as [|a p IH]; intros s.
  - split; [intros _; by exists s | by destruct s].
  - destruct s as [|b s]; simpl.
    + split; [done | intros [r Hr]; by rewrite app_cons in Hr].
    + destruct (ascii_dec a b) as [->|Hne].
      * rewrite IH. split; intros [r Hr]; exists r.
        -- by rewrite app_cons, Hr.
        -- rewrite app_cons in Hr. by injection Hr.
      * split; [done|]. intros [r Hr]. rewrite app_cons in Hr. congruence.
Qed.

(** a pattern without metacharacters matches the strings that contain it *)
Lemma contains_spec (needle s : string) :
  RegExp.contains needle s = true <-> exists a b, s = a +:+ needle +:+ b.
Proof.
  induction s as [|c s IH].
  - cbn [RegExp.contains]. rewrite orb_false_r, prefix_spec. split.
    + intros [r Hr]. by exists EmptyString, r.
    + intros ([|] & b & Hab); [by exists b | by rewrite app_cons in Hab].
  - cbn [RegExp.contains]. rewrite orb_true_iff, IH, prefix_spec. split.
    + intros [[r Hr]|(a & b & Hab)].
      * by exists EmptyString, r.
      * exists (String c a), b. by rewrite app_cons, Hab.
    + intros ([|c' a] & b & Hab).
      * left. by exists b.
      * right. rewrite app_cons in Hab. injection Hab as -> Hs. by exists a, b.
Qed.

End StringFacts.

(** ** CoreHelpers.ts: [isString], [isEmptyObject], [listTakeOffLayer] *)

Definition isString (val : value) : bool :=
  match val with VStr _ => true | _ => false end.

(** [Object.keys(val).length === 0] is read on plain objects only *)
Definition isEmptyObject (val : value) : bool :=
  isObject val && negb (isArray val) && (length (Object_keys val) =? 0)%nat.

Module Layer.

(** [/List$/.test(s)] *)
Fixpoint endsWith (suffix s : string) : bool :=
  bool_decide (s = suffix) ||
  match s with
  | EmptyString => false
  | String _ s' => endsWith suffix s'
  end.

(** [/(^List)|(List$)/.test(key)] *)
Definition listKey (key : string) : bool :=
  String.prefix "List" key || endsWith "List" key.

(** the index keys ["0"], ..., ["n-1"] of an array or a string *)
Definition indexKeys (n : nat) : list string :=
  map (fun i => decimal (Z.of_nat i)) (seq 0 n).

(** the characters [s[0]], [s[1]], ... of a string, one per code unit *)
Definition chars (s : string) : list value :=
  map (fun u => VStr (UTF16.char u)) (UTF16.units s).

(** [Object.keys(ct)], which throws on [undefined] and [null] *)
Definition ownKeys (ct : value) : settled (list string) :=
  match ct with
  | VUndefined | VNull => Reject TypeError
  | VObj o => Resolve (Obj.keys o)
  | VArr elems => Resolve (indexKeys (length elems))
  | VStr s => Resolve (indexKeys (length (chars s)))
  | VBool _ | VNum _ => Resolve []
  end.

(** the position an index key denotes among [n] elements *)
Definition position (n : nat) (k : string) : option nat :=
  fst <$> list_find (fun key => key = k) (indexKeys n).

(** [ct[sub]] for [sub] an own key of [ct], or [undefined] (the property
    named ["undefined"]) when [ct] has no key *)
Definition element (ct : value) (sub : option string) : value :=
  let k := default "undefined" sub in
  match ct with
  | VObj o => Obj.get o k
  | VArr elems => default VUndefined (position (length elems) k ≫= fun i => elems !! i)
  | VStr s => default VUndefined (position (length (chars s)) k ≫= fun i => chars s !! i)
  | _ => VUndefined
  end.

Definition listTakeOffLayer (key : string) (ct : value) : settled value :=
  if negb (listKey key) then Resolve ct
  else
    match ownKeys ct with
    | Reject e => Reject e
    | Resolve ks =>
        let sub := head ks in
        if isArray (element ct sub) then Resolve (element ct sub)
        else Resolve (VArr [element ct sub])
    end.

End Layer.


Lemma endsWith_spec (suffix s : string) :
  Layer.endsWith suffix s = true <-> exists a, s = a +:+ suffix.
Proof.
  induction s as [|c s IH]; cbn [Layer.endsWith].
  - rewrite orb_false_r, bool_decide_eq_true. split.
    + intros <-. by exists EmptyString.
    + intros ([|c a] & Ha); [done | by rewrite StringFacts.app_cons in Ha].
  - rewrite orb_true_iff, bool_decide_eq_true, IH. split.
    + intros [<-|[a ->]]; [by exists EmptyString | by exists (String c a)].
    + intros ([|c' a] & Ha); [by left|].
      right. rewrite StringFacts.app_cons in Ha. injection Ha as -> ->. by exists a.
Qed.

(** X3.  [listTakeOffLayer] looks at the keys that start or end with
    ["List"], and at no other: under any other key the content comes back
    as it is, whatever it is. *)
Theorem listTakeOffLayer_other_keys (key : string) (ct : value) :
  (Layer.listKey key = true <->
     (exists s, key = "List" +:+ s) \/ (exists s, key = s +:+ "List")) /\
  (Layer.listKey key = false -> Layer.listTakeOffLayer key ct = Resolve ct).
Proof.
  split.
  - unfold Layer.listKey.
    by rewrite orb_true_iff, StringFacts.prefix_spec, endsWith_spec.
  - intros Hk. unfold Layer.listTakeOffLayer. by rewrite Hk.
Qed.

(** X4.  Under a key that starts or ends with ["List"], [listTakeOffLayer]
    never returns anything but an array: the first member of an object when
    that is an array, else that member alone in a new array.  Given an
    array instead of an object it treats the first element the same way, so
    the other elements are lost.  On [undefined] and [null] it throws the
    runtime's [TypeError]; an object without keys gives [[undefined]]. *)
Theorem listTakeOffLayer_unwraps (key : string) (ct : value) :
  Layer.listKey key = true ->
  (isNil ct = true -> Layer.listTakeOffLayer key ct = Reject TypeError) /\
  (forall k v o, ct = VObj ((k, v) :: o) ->
     Layer.listTakeOffLayer key ct = Resolve (if isArray v then v else VArr [v])) /\
  (forall x elems, ct = VArr (x :: elems) ->
     Layer.listTakeOffLayer key ct = Resolve (if isArray x then x else VArr [x])) /\
  (ct = VObj [] -> Layer.listTakeOffLayer key ct = Resolve (VArr [VUndefined])) /\
  (forall r, Layer.listTakeOffLayer key ct = Resolve r -> isArray r = true).
Proof.
  intros Hk. unfold Layer.listTakeOffLayer. rewrite Hk. cbn [negb].
  split; [|split; [|split; [|split]]].
  - by destruct ct.
  - intros k v o ->. cbn [Layer.ownKeys Obj.keys map fst head Layer.element default id].
    unfold Obj.get. cbn [Obj.lookup]. rewrite decide_True by done. cbn [default id].
    by destruct (isArray v).
  - intros x elems ->.
    assert (Hel : Layer.element (VArr (x :: elems))
                    (head (Layer.indexKeys (length (x :: elems)))) = x).
    { unfold Layer.element, Layer.position, Layer.indexKeys.
      cbn [length seq map head default id].
      change (decimal (Z.of_nat 0)) with "0".
      cbn [list_find]. rewrite decide_True by done. done. }
    cbn [Layer.ownKeys]. rewrite Hel. by destruct (isArray x).
  - by intros ->.
  - intros r. destruct (Layer.ownKeys ct) as [ks|e]; [|done].
    destruct (isArray (Layer.element ct (head ks))) eqn:Harr; intros [= <-]; done.
Qed.

Lemma listTakeOffLayer_unwraps_witness :
  Layer.listTakeOffLayer "OrderList" (VObj [("Order", VStr "only")])
    = Resolve (VArr [VStr "only"]) /\
  Layer.listTakeOffLayer "OrderList" (VArr [VStr "a"; VStr "b"])
    = Resolve (VArr [VStr "a"]).
Proof.
  destruct (listTakeOffLayer_unwraps "OrderList" (VObj [("Order", VStr "only")]))
    as (_ & Hobj & _); [reflexivity|].
  destruct (listTakeOffLayer_unwraps "OrderList" (VArr [VStr "a"; VStr "b"]))
    as (_ & _ & Harr & _); [reflexivity|].
  split; [exact (Hobj _ _ _ eq_refl) | exact (Harr _ _ eq_refl)].
Defined.

(** ** More on [CreateOptions]: the store and the caller's map *)

Module FrameFacts.
Import ObjFacts SortFacts StoreFacts OptionsFacts MergeFacts NormFacts.

Lemma heap_CreateOptions `{Crypto} l parsing Timestamp (w : world) :
  exists X : obj,
    heap (CreateOptions l parsing Timestamp w).2 =
      setHeaders (this w) (heap (normalize l parsing w).2 ++ [X]) /\
    this (CreateOptions l parsing Timestamp w).2 = this w.
Proof. rewrite CreateOptions_run. by eexists. Qed.

Lemma setHeaders_length api (h : list obj) : length (setHeaders api h) = length h.
Proof. unfold setHeaders. case_decide; by rewrite !length_insert. Qed.

(** what the call leaves at the location of the caller's map *)
Lemma deref_caller_after `{Crypto} l parsing Timestamp (w : world) :
  l < length (heap w) -> l <> Headers (this w) ->
  deref (CreateOptions l parsing Timestamp w).2 l =
    if hasKeyObject parsing
    then (normSteps parsing (Object_keys parsing) (deref w l, [])).1
    else deref w l.
Proof.
  intros Hl Hne. destruct (heap_CreateOptions l parsing Timestamp w) as (X & Hh & _).
  unfold deref at 1. rewrite Hh, setHeaders_other by done.
  rewrite lookup_app_l by (by rewrite normalize_length).
  rewrite normalize_run. destruct (hasKeyObject parsing); [|done].
  simpl. by rewrite list_lookup_insert_eq.
Qed.

(** the object behind [Headers] after the call *)
Lemma Headers_after `{Crypto} l parsing Timestamp (w : world) (hdr : obj) :
  heap w !! Headers (this w) = Some hdr -> l <> Headers (this w) ->
  heap (CreateOptions l parsing Timestamp w).2 !! Headers (this w) =
    Some (let hdr' := Obj.set hdr "Host" (VStr (Host (Area (this w)))) in
          if decide (Method (this w) = "POST")
          then Obj.set hdr' "Content-Type" (VStr "application/x-www-form-urlencoded")
          else hdr').
Proof.
  intros Hh Hne. destruct (heap_CreateOptions l parsing Timestamp w) as (X & -> & _).
  apply setHeaders_lookup, lookup_app_l_Some.
  rewrite normalize_heap_other by done. exact Hh.
Qed.

Lemma hasKeyObject_spec (v : value) :
  hasKeyObject v = true <-> exists kv o, v = VObj (kv :: o).
Proof.
  split.
  - destruct v as [| |b|n|s|elems|[|kv o]]; try done. eauto.
  - by intros (kv & o & ->).
Qed.

Lemma normSteps_scalars parsing ks : forall (q a : obj),
  (forall k, k ∈ ks -> isArray (Obj.get q k) = false) ->
  normSteps parsing ks (q, a) = (q, a).
Proof.
  induction ks as [|key ks IH]; intros q a Hks; [done|].
  rewrite normSteps_cons, normStep_scalar by (apply Hks; left).
  apply IH. intros k Hk. apply Hks. by right.
Qed.

Lemma sublist_delete (o : obj) k : sublist (Obj.delete o k) o.
Proof.
  induction o as [|[k0 v0] o IH]; simpl; [done|].
  case_decide; by constructor.
Qed.

Lemma sublist_normSteps parsing ks : forall (p a : obj),
  sublist (normSteps parsing ks (p, a)).1 p.
Proof.
  induction ks as [|key ks IH]; intros p a; [done|].
  rewrite normSteps_cons.
  destruct (isArray (Obj.get p key)) eqn:Harr.
  - destruct (Obj.get p key) as [| |b0|n0|s0|elems0|o0] eqn:Hget; try done.
    rewrite (normStep_array parsing p a key elems0 Hget).
    etrans; [apply IH | apply sublist_delete].
  - rewrite normStep_scalar by done. apply IH.
Qed.

End FrameFacts.
Import FrameFacts.

(** X5.  The block of lines 65-76 does nothing unless [parsing] is a plain
    object with at least one key: for [undefined], [null], [{}], an array or
    a scalar the parameters are the caller's map as it is, the store is not
    touched, and the caller's map is the same after [CreateOptions]. *)
Theorem normalization_pass_through `{Crypto} (w : world) (l : loc)
    (parsing : value) (Timestamp : string) :
  hasKeyObject parsing = false -> l < length (heap w) -> l <> Headers (this w) ->
  normalize l parsing w = (deref w l, w) /\
  deref (CreateOptions l parsing Timestamp w).2 l = deref w l /\
  (forall v, hasKeyObject v = true <-> exists kv o, v = VObj (kv :: o)) /\
  (forall v, isEmptyObject v = true <-> v = VObj []).
Proof.
  intros Hp Hl Hne. split; [|split; [|split]].
  - by rewrite normalize_run, Hp.
  - by rewrite deref_caller_after, Hp.
  - apply hasKeyObject_spec.
  - intros v. split; [|by intros ->].
    by destruct v as [| |b|n|s|elems|[|kv o]].
Qed.

Lemma normalization_pass_through_witness :
  deref (@CreateOptions plainCrypto 1 (VArr [VStr "Id."]) "2020-01-01T00:00:00.000Z"
           idsWorld).2 1 = [("Ids", VArr [VStr "a"; VStr "b"])].
Proof.
  refine (eq_trans (proj1 (proj2 (@normalization_pass_through plainCrypto idsWorld 1
            (VArr [VStr "Id."]) "2020-01-01T00:00:00.000Z" _ _ _))) _).
  - reflexivity.
  - simpl. lia.
  - simpl. lia.
  - reflexivity.
Defined.

(** X6.  From the caller's map [CreateOptions] removes exactly the keys of
    the mapping that hold an array; every other entry keeps its value and
    its place, and nothing is added. *)
Theorem caller_map_after_CreateOptions `{Crypto} (w : world) (l : loc)
    (parsing : value) (Timestamp : string) :
  l < length (heap w) -> l <> Headers (this w) ->
  let p := deref w l in
  let p' := deref (CreateOptions l parsing Timestamp w).2 l in
  sublist p' p /\
  forall k, Obj.lookup p' k =
    if decide (hasKeyObject parsing = true /\ k ∈ Object_keys parsing /\
               isArray (Obj.get p k) = true)
    then None else Obj.lookup p k.
Proof.
  intros Hl Hne p p'. unfold p'. rewrite deref_caller_after by done. fold p.
  destruct (hasKeyObject parsing).
  - split; [apply sublist_normSteps|]. intros k.
    rewrite lookup_normSteps_params. apply decide_ext. naive_solver.
  - split; [done|]. intros k. rewrite decide_False; [done|]. by intros [? _].
Qed.

Lemma caller_map_after_CreateOptions_witness :
  Obj.lookup (deref (@CreateOptions plainCrypto 1
                       (VObj [("AmazonOrderIds", VStr "AmazonOrderId.Id.")])
                       "2020-01-01T00:00:00.000Z" orderIdsWorld).2 1)
    "AmazonOrderIds" = None.
Proof.
  refine (eq_trans (proj2 (@caller_map_after_CreateOptions plainCrypto orderIdsWorld 1
            (VObj [("AmazonOrderIds", VStr "AmazonOrderId.Id.")])
            "2020-01-01T00:00:00.000Z" _ _) "AmazonOrderIds") _).
  - simpl. lia.
  - simpl. lia.
  - reflexivity.
Defined.

(** X7.  A second [CreateOptions] on the same caller's map finds no array
    left under the mapped keys: it expands nothing, leaves the store of the
    first call as it is, and builds its request from the map the first call
    has stripped. *)
Theorem second_call_expands_nothing `{Crypto} (w : world) (l : loc)
    (parsing : value) (Timestamp Timestamp2 : string) :
  l < length (heap w) -> l <> Headers (this w) -> NoDup (Obj.keys (deref w l)) ->
  let w1 := (CreateOptions l parsing Timestamp w).2 in
  normalize l parsing w1 =
    ((if hasKeyObject parsing then Obj.spread (Obj.spread [] (deref w1 l)) []
      else deref w1 l), w1) /\
  (forall k, Obj.lookup (normalize l parsing w1).1 k = Obj.lookup (deref w1 l) k) /\
  deref (CreateOptions l parsing Timestamp2 w1).2 l = deref w1 l.
Proof.
  intros Hl Hne Hnd w1.
  assert (Hl1 : l < length (heap w1)).
  { unfold w1. destruct (heap_CreateOptions l parsing Timestamp w) as (X & -> & _).
    rewrite setHeaders_length, length_app, normalize_length. lia. }
  assert (Hthis : this w1 = this w)
    by (unfold w1; by destruct (heap_CreateOptions l parsing Timestamp w) as (X & _ & ->)).
  assert (Hq : deref w1 l =
    if hasKeyObject parsing
    then (normSteps parsing (Object_keys parsing) (deref w l, [])).1
    else deref w l) by (by apply deref_caller_after).
  assert (Hsc : hasKeyObject parsing = true ->
    forall k, k ∈ Object_keys parsing -> isArray (Obj.get (deref w1 l) k) = false).
  { intros Hp k Hk. rewrite Hq, Hp. unfold Obj.get.
    rewrite lookup_normSteps_params.
    destruct (decide _) as [|Hno]; [done|].
    destruct (isArray (default VUndefined (Obj.lookup (deref w l) k))) eqn:E; [|done].
    exfalso. apply Hno. by split. }
  assert (Hndq : NoDup (Obj.keys (deref w1 l))).
  { rewrite Hq. destruct (hasKeyObject parsing); [|done].
    assert (Hs : same (deref w l) (deref w l)) by done.
    by destruct (normSteps_same parsing (Object_keys parsing) _ _ [] Hs) as [(? & _) _]. }
  assert (Hnorm : normalize l parsing w1 =
    ((if hasKeyObject parsing then Obj.spread (Obj.spread [] (deref w1 l)) []
      else deref w1 l), w1)).
  { rewrite normalize_run. destruct (hasKeyObject parsing) eqn:Hp; [|done].
    cbv zeta. rewrite normSteps_scalars by (by apply Hsc). simpl. f_equal.
    unfold deref. rewrite insert_deref. by destruct w1. }
  split; [exact Hnorm|]. split.
  - intros k. rewrite Hnorm. simpl. destruct (hasKeyObject parsing); [|done].
    cbn [Obj.spread fold_left]. by apply lookup_spread_nil.
  - rewrite deref_caller_after by (by rewrite ?Hthis).
    destruct (hasKeyObject parsing) eqn:Hp; [|done].
    by rewrite normSteps_scalars by (by apply Hsc).
Qed.

Lemma second_call_expands_nothing_witness :
  let w1 := (@CreateOptions plainCrypto 1
               (VObj [("AmazonOrderIds", VStr "AmazonOrderId.Id.")])
               "2020-01-01T00:00:00.000Z" orderIdsWorld).2 in
  Obj.lookup (normalize 1 (VObj [("AmazonOrderIds", VStr "AmazonOrderId.Id.")]) w1).1
    "AmazonOrderId.Id.1" = None.
Proof.
  refine (eq_trans (proj1 (proj2 (@second_call_expands_nothing plainCrypto orderIdsWorld 1
            (VObj [("AmazonOrderIds", VStr "AmazonOrderId.Id.")])
            "2020-01-01T00:00:00.000Z" "2020-01-01T00:00:01.000Z" _ _ _))
            "AmazonOrderId.Id.1") _).
  - simpl. lia.
  - simpl. lia.
  - apply (bool_decide_unpack _). vm_compute. exact I.
  - reflexivity.
Defined.

(** X8.  [CreateOptions] adds one object to the store, the parameter object
    of the request it returns, and writes to two others at most, the
    caller's map and the client's [Headers]; every other object is left as
    it is. *)
Theorem CreateOptions_store_frame `{Crypto} (w : world) (l : loc)
    (parsing : value) (Timestamp : string) (l' : loc) :
  l' < length (heap w) -> l' <> l -> l' <> Headers (this w) ->
  let r := CreateOptions l parsing Timestamp w in
  heap r.2 !! l' = heap w !! l' /\
  length (heap r.2) = S (length (heap w)) /\
  (qs r.1 = Some (length (heap w)) \/ form r.1 = Some (length (heap w))).
Proof.
  intros Hl' Hne1 Hne2 r. unfold r.
  destruct (heap_CreateOptions l parsing Timestamp w) as (X & Hh & _).
  rewrite Hh. split; [|split].
  - rewrite setHeaders_other by done.
    rewrite lookup_app_l by (by rewrite normalize_length).
    by apply normalize_heap_other.
  - rewrite setHeaders_length, length_app, normalize_length. simpl. lia.
  - rewrite CreateOptions_run. cbn -[normalize]. case_decide; eauto.
Qed.

Lemma CreateOptions_store_frame_witness :
  heap (@CreateOptions plainCrypto 1 VUndefined "2020-01-01T00:00:00.000Z"
          {| this := orderClient; heap := [[]; []; [("kept", VNum 1)]] |}).2 !! 2
    = Some [("kept", VNum 1)].
Proof.
  refine (eq_trans (proj1 (@CreateOptions_store_frame plainCrypto
            {| this := orderClient; heap := [[]; []; [("kept", VNum 1)]] |}
            1 VUndefined "2020-01-01T00:00:00.000Z" 2 _ _ _)) _).
  - simpl. lia.
  - lia.
  - simpl. lia.
  - reflexivity.
Defined.

(** X9.  The request [CreateOptions] returns has the client's own [Headers]
    object for its headers.  After [ConfigureArea] and another
    [CreateOptions], the [Host] header of the first request is the host of
    the new area. *)
Theorem request_headers_follow_client `{Crypto} (w : world) (l l2 : loc)
    (parsing parsing2 : value) (Timestamp Timestamp2 : string) (area : TArea)
    (hdr : obj) :
  heap w !! Headers (this w) = Some hdr ->
  l <> Headers (this w) -> l2 <> Headers (this w) ->
  let r1 := CreateOptions l parsing Timestamp w in
  let w2 := (ConfigureArea area r1.2).2 in
  let r2 := CreateOptions l2 parsing2 Timestamp2 w2 in
  headers r1.1 = Headers (this w) /\
  headers r2.1 = headers r1.1 /\
  Obj.get (deref r1.2 (headers r1.1)) "Host" = VStr (Host (Area (this w))) /\
  Obj.get (deref r2.2 (headers r1.1)) "Host" = VStr (Host (CreateArea area)).
Proof.
  intros Hh Hne Hne2 r1 w2 r2.
  assert (Hhost : forall (api : Api) (o : obj),
    Obj.get (let hdr' := Obj.set o "Host" (VStr (Host (Area api))) in
             if decide (Method api = "POST")
             then Obj.set hdr' "Content-Type"
                    (VStr "application/x-www-form-urlencoded")
             else hdr') "Host" = VStr (Host (Area api))).
  { intros api o. unfold Obj.get. cbv zeta.
    destruct (decide (Method api = "POST"));
      rewrite !lookup_set, ?(decide_False (P := "Content-Type" = "Host")) by done;
      by rewrite decide_True. }
  assert (Hh1 := Headers_after l parsing Timestamp w hdr Hh Hne). fold r1 in Hh1.
  assert (Hr1 : headers r1.1 = Headers (this w))
    by (unfold r1; by rewrite CreateOptions_run).
  assert (Ht1 : this r1.2 = this w)
    by (unfold r1; by rewrite CreateOptions_run).
  assert (Hw2 : Headers (this w2) = Headers (this w) /\ heap w2 = heap r1.2 /\
                Area (this w2) = CreateArea area).
  { unfold w2, ConfigureArea, assign_this. simpl. by rewrite Ht1. }
  destruct Hw2 as (Hw2h & Hw2heap & Hw2a).
  assert (Hpre : heap w2 !! Headers (this w2) = heap r1.2 !! Headers (this w))
    by (by rewrite Hw2h, Hw2heap).
  rewrite Hh1 in Hpre.
  assert (Hne2' : l2 <> Headers (this w2)) by (by rewrite Hw2h).
  assert (Hh2 := Headers_after l2 parsing2 Timestamp2 w2 _ Hpre Hne2').
  fold r2 in Hh2. rewrite Hw2h in Hh2.
  split; [done|]. split.
  { rewrite Hr1, <- Hw2h. unfold r2. by rewrite CreateOptions_run. }
  rewrite Hr1. unfold deref. rewrite Hh1, Hh2. cbn [default id].
  split; [apply Hhost|]. rewrite <- Hw2a. apply Hhost.
Qed.

Lemma request_headers_follow_client_witness :
  let r1 := @CreateOptions plainCrypto 1 VUndefined "2020-01-01T00:00:00.000Z"
              noteWorld in
  let r2 := @CreateOptions plainCrypto 1 VUndefined "2020-01-01T00:00:01.000Z"
              (ConfigureArea JP r1.2).2 in
  Obj.get (deref r2.2 (headers r1.1)) "Host" = VStr "mws.amazonservices.jp".
Proof.
  refine (proj2 (proj2 (proj2 (@request_headers_follow_client plainCrypto noteWorld 1 1
           VUndefined VUndefined "2020-01-01T00:00:00.000Z" "2020-01-01T00:00:01.000Z"
           JP [] _ _ _)))).
  - reflexivity.
  - simpl. lia.
  - simpl. lia.
Defined.

(** X10.  In the parameters of a request the caller's value wins for
    [Action], [AWSAccessKeyId], [MWSAuthToken], [Timestamp] and [Version],
    which otherwise come from the client and the clock; the client's value
    wins for [SignatureMethod], [SignatureVersion] and the seller key
    ([Merchant] or [SellerId]); [Signature] is always the computed one; every
    other key is the caller's. *)
Theorem request_parameter_precedence `{Crypto} (w : world) (l : loc)
    (parsing : value) (Timestamp : string) :
  wf w -> NoDup (Obj.keys (deref w l)) ->
  let api := this w in
  let params := (normalize l parsing w).1 in
  let P := PreParams api Timestamp params in
  let S := sent (CreateOptions l parsing Timestamp w) in
  let merged k d := Some (default (VStr d) (Obj.lookup params k)) in
  (Obj.lookup S "Action" = merged "Action" (Action api) /\
   Obj.lookup S "AWSAccessKeyId" = merged "AWSAccessKeyId" (AWSAccessKeyId (Access api)) /\
   Obj.lookup S "MWSAuthToken" = merged "MWSAuthToken" (MWSAuthToken (Seller api)) /\
   Obj.lookup S "Timestamp" = merged "Timestamp" Timestamp /\
   Obj.lookup S "Version" = merged "Version" (Version api)) /\
  (Obj.lookup S "SignatureMethod" = Some (VStr "HmacSHA256") /\
   Obj.lookup S "SignatureVersion" = Some (VStr "2") /\
   Obj.lookup S (if IsMerchant (Setting api) then "Merchant" else "SellerId")
     = Some (VStr (SellerId (Seller api))) /\
   Obj.lookup S "Signature" = Some (VStr (Signature api P))) /\
  (forall k,
     k ∉ ["Action"; "AWSAccessKeyId"; "MWSAuthToken"; "Timestamp"; "Version";
          "SignatureMethod"; "SignatureVersion"; "Signature";
          if IsMerchant (Setting api) then "Merchant" else "SellerId"] ->
     Obj.lookup S k = Obj.lookup params k).
Proof.
  intros Hwf Hnd api params P S merged.
  assert (Hndp : NoDup (Obj.keys params)) by (by apply NoDup_keys_normalize).
  assert (HS : forall k, Obj.lookup S k =
    if decide ("Signature" = k) then Some (VStr (Signature api P))
    else Obj.lookup P k).
  { intros k. unfold S. rewrite sent_CreateOptions by done. apply lookup_set. }
  assert (HP : forall k, Obj.lookup P k =
    if decide ((if IsMerchant (Setting api) then "Merchant" else "SellerId") = k)
    then Some (VStr (SellerId (Seller api)))
    else if decide ("SignatureVersion" = k) then Some (VStr "2")
    else if decide ("SignatureMethod" = k) then Some (VStr "HmacSHA256")
    else match Obj.lookup params k with
         | Some v => Some v
         | None =>
             Obj.lookup
               (Obj.literal
                  [("Action", VStr (Action api));
                   ("AWSAccessKeyId", VStr (AWSAccessKeyId (Access api)));
                   ("MWSAuthToken", VStr (MWSAuthToken (Seller api)));
                   ("Timestamp", VStr Timestamp);
                   ("Version", VStr (Version api))]) k
         end).
  { intros k. unfold P, PreParams.
    destruct (IsMerchant (Setting api));
      by rewrite !lookup_set, lookup_spread. }
  split; [|split].
  - unfold merged.
    repeat split; rewrite HS, decide_False, HP by done;
      destruct (IsMerchant (Setting api));
      rewrite !decide_False by done;
      by destruct (Obj.lookup params _).
  - repeat split; rewrite HS, ?HP;
      destruct (IsMerchant (Setting api)); done.
  - intros k Hk. rewrite !not_elem_of_cons in Hk.
    destruct Hk as (H1 & H2 & H3 & H4 & H5 & H6 & H7 & H8 & H9 & _).
    rewrite HS, decide_False, HP by done.
    rewrite !decide_False by done.
    destruct (Obj.lookup params k); [done|].
    apply lookup_None.
    change (k ∉ ["Action"; "AWSAccessKeyId"; "MWSAuthToken"; "Timestamp"; "Version"]).
    rewrite !not_elem_of_cons. repeat split; try done.
    apply not_elem_of_nil.
Qed.

Definition overrideWorld : world :=
  {| this := orderClient;
     heap := [[]; [("Action", VStr "Other"); ("SignatureVersion", VStr "4")]] |}.

Lemma request_parameter_precedence_witness :
  Obj.lookup (sent (@CreateOptions plainCrypto 1 VUndefined
                      "2020-01-01T00:00:00.000Z" overrideWorld)) "Action"
    = Some (VStr "Other") /\
  Obj.lookup (sent (@CreateOptions plainCrypto 1 VUndefined
                      "2020-01-01T00:00:00.000Z" overrideWorld)) "SignatureVersion"
    = Some (VStr "2").
Proof.
  pose proof (@request_parameter_precedence plainCrypto overrideWorld 1 VUndefined
                "2020-01-01T00:00:00.000Z") as Hthm.
  destruct Hthm as ((Hact & _) & (_ & Hver & _) & _).
  - unfold wf. simpl. lia.
  - apply (bool_decide_unpack _). vm_compute. exact I.
  - split; [exact Hact | exact Hver].
Defined.

(** ** More on [sortObject] and the query string *)

Module CanonFacts.
Import ObjFacts OrderFacts SortFacts.

Lemma lookup_elem_of (o : obj) k v :
  NoDup (Obj.keys o) -> (k, v) ∈ o -> Obj.lookup o k = Some v.
Proof.
  induction o as [|[k0 v0] o IH]; simpl; intros Hnd Hin.
  - by apply elem_of_nil in Hin.
  - apply NoDup_cons in Hnd as [Hni Hnd].
    apply elem_of_cons in Hin as [[= -> ->]|Hin]; [by rewrite decide_True|].
    rewrite decide_False; [by apply IH|].
    intros ->. apply Hni. unfold Obj.keys. apply list_elem_of_fmap. by exists (k, v).
Qed.

Lemma elem_of_lookup (o : obj) k v : Obj.lookup o k = Some v -> (k, v) ∈ o.
Proof.
  induction o as [|[k0 v0] o IH]; simpl; [done|].
  destruct (decide (k0 = k)) as [->|Hne].
  - intros [= ->]. by left.
  - intros Hl. right. by apply IH.
Qed.

Lemma sortObject_not_nil (o : obj) :
  Forall (fun kv => isNil kv.2 = false) (sortObject o).
Proof.
  apply Forall_forall. intros [k v] Hin.
  apply lookup_elem_of in Hin; [|apply NoDup_keys_sortObject].
  rewrite lookup_sortObject in Hin. destruct (decide _); [done|].
  destruct (Obj.lookup o k) as [v'|]; [|done].
  destruct (isNil v') eqn:Hv; [done|]. by injection Hin as <-.
Qed.

Lemma sortObject_fixed (o : obj) :
  NoDup (Obj.keys o) -> Sorted enumerated (Obj.keys o) ->
  Forall (fun kv => isNil kv.2 = false) o -> "__proto__" ∉ Obj.keys o ->
  sortObject o = o.
Proof.
  intros Hnd Hs Hnn Hp. apply obj_ext_sorted.
  - apply NoDup_keys_sortObject.
  - done.
  - by apply Sorted_keys_sortObject.
  - by apply Sorted_StronglySorted; [apply _|].
  - intros k. rewrite lookup_sortObject.
    destruct (decide (k = "__proto__")) as [->|Hne].
    + symmetry. by apply lookup_None.
    + destruct (Obj.lookup o k) as [v|] eqn:Hk; [|done].
      apply elem_of_lookup in Hk. rewrite Forall_forall in Hnn.
      specialize (Hnn (k, v) Hk). simpl in Hnn. by rewrite Hnn.
Qed.

End CanonFacts.

(** X11.  [sortObject] is idempotent: what it returns has no [null] or
    [undefined] value, and sorting it again changes nothing; an object that
    already has its keys in the order of a sorted object (the array indices
    by number, then the other names ascending), no nil value and no
    [__proto__] is returned as it is. *)
Theorem sortObject_idempotent (o : obj) :
  NoDup (Obj.keys o) ->
  sortObject (sortObject o) = sortObject o /\
  Forall (fun kv => isNil kv.2 = false) (sortObject o) /\
  (Sorted enumerated (Obj.keys o) -> Forall (fun kv => isNil kv.2 = false) o ->
   "__proto__" ∉ Obj.keys o -> sortObject o = o).
Proof.
  intros Hnd.
  pose proof (CanonFacts.sortObject_not_nil o) as Hnn.
  split; [|split; [done|]].
  - apply CanonFacts.sortObject_fixed; [| |done|].
    + apply SortFacts.NoDup_keys_sortObject.
    + by apply StronglySorted_Sorted, SortFacts.Sorted_keys_sortObject.
    + apply ObjFacts.lookup_None.
      by rewrite SortFacts.lookup_sortObject, decide_True.
  - by apply CanonFacts.sortObject_fixed.
Qed.

Lemma sortObject_idempotent_witness :
  sortObject (sortObject [("b", VStr "2"); ("skip", VNull); ("a", VStr "1")])
    = sortObject [("b", VStr "2"); ("skip", VNull); ("a", VStr "1")].
Proof.
  apply (sortObject_idempotent [("b", VStr "2"); ("skip", VNull); ("a", VStr "1")]).
  apply (bool_decide_unpack _). vm_compute. exact I.
Defined.

Module QueryFacts.

(** how often a character occurs in a string *)
Fixpoint count (c : ascii) (s : string) : nat :=
  match s with
  | EmptyString => 0
  | String a s' => (if decide (a = c) then 1 else 0) + count c s'
  end.

Lemma count_app c (s t : string) : count c (s +:+ t) = count c s + count c t.
Proof.
  induction s as [|a s IH]; [done|].
  rewrite StringFacts.app_cons. simpl. rewrite IH. lia.
Qed.

Lemma noEscape_hexDigit (c : ascii) :
  QueryString.noEscape (QueryString.hexDigit (N_of_ascii c / 16)) = true /\
  QueryString.noEscape (QueryString.hexDigit (N_of_ascii c mod 16)) = true.
Proof. destruct c as [[] [] [] [] [] [] [] []]; by vm_compute. Qed.

(** a character that is escaped, other than [%], is not in the output *)
Lemma count_escape (c : ascii) (s : string) :
  QueryString.noEscape c = false -> c <> "%"%char ->
  count c (QueryString.escape s) = 0.
Proof.
  intros Hc Hp. induction s as [|a s IH]; [done|]. simpl.
  destruct (QueryString.noEscape a) eqn:Ha; simpl.
  - rewrite decide_False by congruence. done.
  - destruct (noEscape_hexDigit a) as [H1 H2].
    rewrite !decide_False by congruence. done.
Qed.

(** the inverse of [escape], for the proof that it loses nothing *)
Definition hexValue (c : ascii) : N :=
  let n := N_of_ascii c in
  (if n <? 58 then n - 48 else n - 55)%N.

Fixpoint decode (s : string) : string :=
  match s with
  | EmptyString => EmptyString
  | String c s' =>
      if decide (c = "%"%char) then
        match s' with
        | String h1 (String h2 s'') =>
            String (ascii_of_N (16 * hexValue h1 + hexValue h2)) (decode s'')
        | _ => String c (decode s')
        end
      else String c (decode s')
  end.

Lemma decode_byte (c : ascii) :
  ascii_of_N (16 * hexValue (QueryString.hexDigit (N_of_ascii c / 16))
              + hexValue (QueryString.hexDigit (N_of_ascii c mod 16))) = c.
Proof. destruct c as [[] [] [] [] [] [] [] []]; by vm_compute. Qed.

Lemma decode_escape (s : string) : decode (QueryString.escape s) = s.
Proof.
  induction s as [|a s IH]; [done|]. simpl.
  destruct (QueryString.noEscape a) eqn:Ha.
  - cbn [decode]. rewrite decide_False by (intros ->; done).
    fold decode. by rewrite IH.
  - cbn [decode]. rewrite decide_True by done. by rewrite decode_byte, IH.
Qed.

Lemma escape_inj (s t : string) : QueryString.escape s = QueryString.escape t -> s = t.
Proof. intros Heq. by rewrite <- (decode_escape s), Heq, decode_escape. Qed.

(** cutting at the first occurrence of a character *)
Lemma cut_unique (c : ascii) (a a' b b' : string) :
  count c a = 0 -> count c a' = 0 ->
  a +:+ String c b = a' +:+ String c b' -> a = a' /\ b = b'.
Proof.
  revert a'. induction a as [|x a IH]; intros [|x' a'] Ha Ha' Heq;
    rewrite ?StringFacts.app_nil_l, ?StringFacts.app_cons in Heq.
  - by injection Heq.
  - injection Heq as <- _. simpl in Ha'. rewrite decide_True in Ha' by done. lia.
  - injection Heq as -> _. simpl in Ha. rewrite decide_True in Ha by done. lia.
  - injection Heq as -> Heq. simpl in Ha, Ha'.
    destruct (IH a') as [-> ->]; [lia..|done|done].
Qed.

Lemma count_concat_amp (fs : list string) :
  fs <> [] ->
  count "&" (String.concat "&" fs) =
    length fs - 1 + list_sum (map (count "&") fs).
Proof.
  induction fs as [|f [|g fs] IH]; intros Hne; [done|simpl; lia|].
  change (String.concat "&" (f :: g :: fs))
    with (f +:+ "&" +:+ String.concat "&" (g :: fs)).
  rewrite !count_app, IH by done.
  change (count "&" "&") with 1. simpl. lia.
Qed.

Lemma count_concat_other c (fs : list string) :
  c <> "&"%char ->
  count c (String.concat "&" fs) = list_sum (map (count c) fs).
Proof.
  intros Hc. induction fs as [|f [|g fs] IH]; [done|simpl; lia|].
  change (String.concat "&" (f :: g :: fs))
    with (f +:+ "&" +:+ String.concat "&" (g :: fs)).
  rewrite !count_app, IH.
  assert (count c "&" = 0) as -> by (simpl; by rewrite decide_False by congruence).
  simpl. lia.
Qed.

(** a field: one [=], no [&], nothing unescaped but [%] *)
Lemma count_field (c : ascii) (k v : string) :
  QueryString.noEscape c = false -> c <> "%"%char ->
  count c ((QueryString.escape k +:+ "=") +:+ QueryString.escape v) =
    if decide (c = "="%char) then 1 else 0.
Proof.
  intros Hc Hp. rewrite !count_app, !count_escape by done. simpl.
  destruct (decide ("="%char = c)) as [<-|Hne]; [by rewrite decide_True|].
  by rewrite decide_False by congruence.
Qed.

Lemma count_fields (c : ascii) (o : obj) :
  QueryString.noEscape c = false -> c <> "%"%char ->
  list_sum (map (count c) (concat (map QueryString.fields o))) =
    if decide (c = "="%char) then length (concat (map QueryString.fields o)) else 0.
Proof.
  intros Hc Hp.
  assert (Hall : Forall (fun f => count c f = if decide (c = "="%char) then 1 else 0)
                   (concat (map QueryString.fields o))).
  { apply Forall_concat, Forall_fmap, Forall_forall. intros [k v] _.
    unfold QueryString.fields. cbn [fst snd].
    destruct v as [| |b|n|s|elems|props];
      try (constructor; [by apply count_field | constructor]).
    apply Forall_fmap, Forall_forall. intros e _. by apply count_field. }
  induction Hall as [|f fs Hf Hfs IH]; [by case_decide|].
  simpl. rewrite Hf, IH. case_decide; lia.
Qed.

(** joining with [&] loses nothing when no field has an [&] or is empty *)
Lemma join_inj (fs gs : list string) :
  Forall (fun f => count "&" f = 0 /\ f <> EmptyString) fs ->
  Forall (fun f => count "&" f = 0 /\ f <> EmptyString) gs ->
  String.concat "&" fs = String.concat "&" gs -> fs = gs.
Proof.
  intros Hfs. revert gs. induction Hfs as [|f fs [Hf Hfe] Hfs IH]; intros gs Hgs Heq.
  - destruct Hgs as [|g gs [Hg Hge] Hgs]; [done|]. exfalso.
    destruct gs as [|g' gs]; simpl in Heq; [by apply Hge|].
    destruct g; [by apply Hge | done].
  - destruct Hgs as [|g gs [Hg Hge] Hgs].
    { exfalso. destruct fs as [|f' fs]; simpl in Heq; [by apply Hfe|].
      destruct f; [by apply Hfe | done]. }
    assert (Hnoamp : forall (x y : string) rest, count "&" x = 0 ->
              x <> y +:+ "&" +:+ rest).
    { intros x y rest Hx ->. rewrite !count_app in Hx.
      change (count "&" "&") with 1 in Hx. lia. }
    destruct fs as [|f' fs], gs as [|g' gs].
    + simpl in Heq. by subst.
    + exfalso. by apply (Hnoamp f g (String.concat "&" (g' :: gs))).
    + exfalso. by apply (Hnoamp g f (String.concat "&" (f' :: fs))).
    + change (f +:+ String "&" (String.concat "&" (f' :: fs)) =
              g +:+ String "&" (String.concat "&" (g' :: gs))) in Heq.
      apply cut_unique in Heq as [-> Heq]; [|done..].
      f_equal. by apply IH.
Qed.

Lemma field_inj (k v k' v' : string) :
  (QueryString.escape k +:+ "=") +:+ QueryString.escape v =
  (QueryString.escape k' +:+ "=") +:+ QueryString.escape v' ->
  k = k' /\ v = v'.
Proof.
  intros Heq. rewrite !append_assoc in Heq.
  apply (cut_unique "=") in Heq as [Hk Hv]; [|by apply count_escape..].
  split; by apply escape_inj.
Qed.

Lemma field_shape (c : ascii) (k v : string) :
  QueryString.noEscape c = false -> c <> "%"%char -> c <> "="%char ->
  count c ((QueryString.escape k +:+ "=") +:+ QueryString.escape v) = 0 /\
  (QueryString.escape k +:+ "=") +:+ QueryString.escape v <> EmptyString.
Proof.
  intros Hc Hp He. split.
  - rewrite count_field by done. by rewrite decide_False.
  - rewrite append_assoc. by destruct (QueryString.escape k).
Qed.

(** the fields of an object whose values are all strings *)
Lemma fields_strings (o : obj) :
  Forall (fun kv => isString kv.2 = true) o ->
  concat (map QueryString.fields o) =
    map (fun kv => (QueryString.escape kv.1 +:+ "=")
                   +:+ QueryString.escape (QueryString.stringifyPrimitive kv.2)) o.
Proof.
  induction 1 as [|[k v] o Hv Ho IH]; [done|].
  simpl. rewrite IH. by destruct v.
Qed.

End QueryFacts.

(** X12.  In the query string that is signed the separators are
    unambiguous: [=] occurs once in each field and nowhere else, [&] only
    between two fields, and no other character that [escape] escapes (a
    space, [+], [/], a byte above 127, ...) occurs at all. *)
Theorem query_string_separators (o : obj) :
  let fs := concat (map QueryString.fields o) in
  QueryFacts.count "=" (qsStringify o) = length fs /\
  QueryFacts.count "&" (qsStringify o) = length fs - 1 /\
  (forall c, QueryString.noEscape c = false -> c ∉ ["%"; "="; "&"]%char ->
     QueryFacts.count c (qsStringify o) = 0).
Proof.
  intros fs. unfold qsStringify, QueryString.stringify. fold fs.
  split; [|split].
  - rewrite QueryFacts.count_concat_other by done. unfold fs.
    by rewrite QueryFacts.count_fields.
  - destruct (decide (fs = [])) as [->|Hne]; [done|].
    rewrite QueryFacts.count_concat_amp by done. unfold fs.
    rewrite QueryFacts.count_fields by done. simpl. lia.
  - intros c Hc Hin. rewrite !not_elem_of_cons in Hin.
    destruct Hin as (H1 & H2 & H3 & _).
    rewrite QueryFacts.count_concat_other by done. unfold fs.
    rewrite QueryFacts.count_fields by done. by rewrite decide_False.
Qed.

(** X13.  The query string determines the parameters: two objects whose
    values are all strings and whose query strings are equal are the same
    object, key by key and value by value. *)
Theorem query_string_determines_parameters (o o' : obj) :
  Forall (fun kv => isString kv.2 = true) o ->
  Forall (fun kv => isString kv.2 = true) o' ->
  qsStringify o = qsStringify o' -> o = o'.
Proof.
  intros Ho Ho' Heq. unfold qsStringify, QueryString.stringify in Heq.
  rewrite !QueryFacts.fields_strings in Heq by done.
  apply QueryFacts.join_inj in Heq.
  - revert o' Ho' Heq. induction Ho as [|[k v] o Hv Ho IH]; intros o' Ho' Heq.
    + by destruct o'.
    + destruct Ho' as [|[k' v'] o' Hv' Ho']; [done|].
      simpl in Heq. injection Heq as Hf Heq.
      apply QueryFacts.field_inj in Hf as [-> Hs].
      destruct v, v'; try done. simpl in Hs. subst.
      f_equal. by apply IH.
  - apply Forall_fmap, Forall_forall. intros kv _. by apply QueryFacts.field_shape.
  - apply Forall_fmap, Forall_forall. intros kv _. by apply QueryFacts.field_shape.
Qed.

Lemma query_string_determines_parameters_witness :
  qsStringify [("a b", VStr "1&2")] = "a%20b=1%262" /\
  [("a b", VStr "1&2")] = [("a b", VStr "1&2")].
Proof.
  split; [reflexivity|].
  apply (query_string_determines_parameters [("a b", VStr "1&2")] [("a b", VStr "1&2")]).
  - by repeat constructor.
  - by repeat constructor.
  - reflexivity.
Defined.

(** ** More on [Requesting] and the retry loop *)

Module ClassifyFacts.

Lemma Requesting_find (r : transport) :
  Requesting r =
    match error r with
    | Some t =>
        Reject (if isTimeoutCode (code t) then RequestTimeoutError
                else LocalRequestError)
    | None =>
        match List.find (matches r) markers with
        | Some m => Reject m.2
        | None =>
            if RegExp.envelope (body r) then Reject UndefinedRequestError
            else Resolve (body r)
        end
    end.
Proof.
  unfold Requesting. destruct (error r) as [t|]; [by destruct (isTimeoutCode _)|].
  unfold markers, matches. cbn [List.find fst snd].
  repeat (destruct (_ && _); [reflexivity|]). reflexivity.
Qed.

Lemma markers_status (st : Z) (mk : string) (e : exn) :
  In (st, mk, e) markers ->
  (e = QuotaExceeded \/ e = RequestThrottled -> st = 503%Z) /\
  e ∉ [RequestTimeoutError; LocalRequestError; UndefinedRequestError;
       LocalExceededError; ConfigurationError; TypeError].
Proof.
  unfold markers. simpl. intros Hin.
  repeat (destruct Hin as [[= <- <- <-]|Hin];
          [split; [by intros [|]|]; by apply (bool_decide_unpack _)|]).
  done.
Qed.

Lemma isTimeoutCode_spec (c : option string) :
  isTimeoutCode c = true <-> c = Some "ESOCKETTIMEDOUT" \/ c = Some "ETIMEDOUT".
Proof.
  destruct c as [c|]; simpl; [|naive_solver].
  rewrite orb_true_iff, !bool_decide_eq_true. naive_solver.
Qed.

End ClassifyFacts.

(** X14.  Every rejection of [Requesting] has its cause in the answer: with
    a transport error it is [RequestTimeoutError] for the two timeout codes
    and [LocalRequestError] otherwise; without one it is the error of a pair
    whose status and marker the answer has, or [UndefinedRequestError] for
    an envelope.  So [QuotaExceeded] and [RequestThrottled] come with status
    503 only, a timeout only from the transport, and [Requesting] never
    gives [LocalExceededError], [ConfigurationError] or [TypeError]. *)
Theorem Requesting_rejection_causes (r : transport) (e : exn) :
  Requesting r = Reject e ->
  match error r with
  | Some t =>
      e = (if isTimeoutCode (code t) then RequestTimeoutError else LocalRequestError)
  | None =>
      (exists st mk, (st, mk, e) ∈ markers /\ statusCode r = st /\
                     RegExp.contains mk (body r) = true) \/
      (e = UndefinedRequestError /\ RegExp.envelope (body r) = true)
  end /\
  (e = QuotaExceeded \/ e = RequestThrottled ->
     error r = None /\ statusCode r = 503%Z) /\
  (e = RequestTimeoutError ->
     exists t, error r = Some t /\
       (code t = Some "ESOCKETTIMEDOUT" \/ code t = Some "ETIMEDOUT")) /\
  e ∉ [LocalExceededError; ConfigurationError; TypeError].
Proof.
  rewrite ClassifyFacts.Requesting_find.
  destruct (error r) as [t|] eqn:Herr.
  - intros [= <-]. split; [done|]. split; [|split].
    + by destruct (isTimeoutCode (code t)); intros [|].
    + intros Ht. exists t. split; [done|].
      apply ClassifyFacts.isTimeoutCode_spec. by destruct (isTimeoutCode (code t)).
    + destruct (isTimeoutCode (code t)); by apply (bool_decide_unpack _).
  - destruct (List.find (matches r) markers) as [[[st mk] e']|] eqn:Hfind.
    + intros [= <-]. apply List.find_some in Hfind as [Hin Hm].
      unfold matches in Hm. simpl in Hm.
      apply andb_true_iff in Hm as [Hst%Z.eqb_eq Hmk].
      destruct (ClassifyFacts.markers_status st mk e' Hin) as [H503 Hnot].
      rewrite !not_elem_of_cons in Hnot.
      destruct Hnot as (N1 & N2 & N3 & N4 & N5 & N6 & _).
      split; [|split; [|split]].
      * left. exists st, mk. by rewrite list_elem_of_In.
      * intros Hq. split; [done|]. rewrite Hst. by apply H503.
      * done.
      * rewrite !not_elem_of_cons. repeat split; try done. apply not_elem_of_nil.
    + destruct (RegExp.envelope (body r)) eqn:Henv; [|done].
      intros [= <-]. split; [by right|]. split; [by intros [|]|]. split; [done|].
      by apply (bool_decide_unpack _).
Qed.

Lemma Requesting_rejection_causes_witness :
  statusCode (answered 503 "<Code>RequestThrottled</Code>") = 503%Z.
Proof.
  apply (Requesting_rejection_causes (answered 503 "<Code>RequestThrottled</Code>")
           RequestThrottled); [reflexivity | by right].
Defined.

Module LoopFacts.

Lemma member_errors (v : value) (k : string) (e : exn) :
  member v k = Reject e -> e = TypeError.
Proof. destruct v; simpl; congruence. Qed.

Lemma CreateResponse_errors `{XmlParser} (api : Api) (text : string) (e : exn) :
  CreateResponse api text = Reject e -> e = TypeError \/ e = UndefinedRequestError.
Proof.
  unfold CreateResponse.
  destruct (member (xmlParser text) "ErrorResponse") as [v|e1] eqn:H1.
  - destruct (truthy v); [intros [= <-]; by right|].
    destruct (member (xmlParser text) (Action api +:+ "Response")) as [v2|e2] eqn:H2.
    + intros He%member_errors. by left.
    + intros [= <-]. left. by eapply member_errors.
  - intros [= <-]. left. by eapply member_errors.
Qed.

(** the three errors the loop catches *)
Definition caught : list exn := [RequestTimeoutError; QuotaExceeded; RequestThrottled].

Lemma retryable_caught (r : settled value) :
  retryable r = true <-> exists e, r = Reject e /\ e ∈ caught.
Proof.
  unfold caught. split.
  - destruct r as [v|[]]; simpl; try done; intros _; eexists; (split; [done|]);
      by apply (bool_decide_unpack _).
  - intros (e & -> & He). rewrite !elem_of_cons in He.
    destruct He as [->| [->| [->|He]]]; try done. by apply elem_of_nil in He.
Qed.

(** an attempt is retried on the classification of the answer alone: what
    the parser makes of a body never is *)
Lemma tryRequest_retryable `{XmlParser} (api : Api) (r : transport) :
  retryable (tryRequest api r) = true <->
  exists e, Requesting r = Reject e /\ e ∈ caught.
Proof.
  rewrite retryable_caught. unfold tryRequest.
  destruct (Requesting r) as [text|e0] eqn:Hreq.
  - split; [|by intros (e & [=] & _)].
    intros (e & He & Hin). destruct (decide _); [done|].
    apply CreateResponse_errors in He. unfold caught in Hin.
    rewrite !elem_of_cons in Hin. rewrite elem_of_nil in Hin.
    destruct He as [->| ->]; naive_solver.
  - split; intros (e & Heq & Hin); injection Heq as <-; by exists e0.
Qed.

Lemma tryRequest_not_exhausted `{XmlParser} (api : Api) (r : transport) :
  tryRequest api r <> Reject LocalExceededError /\
  tryRequest api r <> Reject ConfigurationError.
Proof.
  unfold tryRequest. destruct (Requesting r) as [text|e0] eqn:Hreq.
  - destruct (decide _); [done|].
    split; intros He%CreateResponse_errors; by destruct He.
  - rewrite ClassifyFacts.Requesting_find in Hreq.
    destruct (error r) as [t|].
    + injection Hreq as <-. by destruct (isTimeoutCode (code t)).
    + destruct (List.find (matches r) markers) as [[[st mk] e']|] eqn:Hfind.
      * injection Hreq as <-. apply List.find_some in Hfind as [Hin _].
        apply ClassifyFacts.markers_status in Hin as [_ Hnot].
        rewrite !not_elem_of_cons in Hnot. simpl. naive_solver.
      * destruct (RegExp.envelope (body r)); [|done]. by injection Hreq as <-.
Qed.

(** the loop reads [Action], [Convert] and [Throttled] of the client *)
Definition agree (api api' : Api) : Prop :=
  Action api' = Action api /\
  Convert (Setting api') = Convert (Setting api) /\
  Throttled (Setting api') = Throttled (Setting api).

Lemma tryRequest_agree `{XmlParser} (api api' : Api) (r : transport) :
  agree api api' -> tryRequest api' r = tryRequest api r.
Proof.
  intros (Ha & Hc & _). unfold tryRequest, CreateResponse. by rewrite Ha, Hc.
Qed.

Lemma attempts_agree `{XmlParser} (api api' : Api) options net n : forall i,
  agree api api' ->
  attempts api' options net n i = attempts api options net n i.
Proof.
  induction n as [|n IH]; intros i Hag; [done|].
  simpl. rewrite (tryRequest_agree api api') by done.
  rewrite (IH (S i)) by done. by destruct Hag as (_ & _ & ->).
Qed.

Lemma attempts_more `{XmlParser} (api : Api) options net k n : forall i,
  (attempts api options net n i).1 <> Reject LocalExceededError ->
  attempts api options net (n + k) i = attempts api options net n i.
Proof.
  induction n as [|n IH]; intros i Hne; [done|].
  simpl in *.
  destruct (tryRequest api (net i)) as [v|[]]; try done;
    destruct (attempts api options net n (S i)) as [r tr] eqn:Hn;
    rewrite (IH (S i)) by (by rewrite Hn); by rewrite Hn.
Qed.

Lemma rounds_S `{XmlParser} (api : Api) options net i m :
  rounds api options net i (S m) =
    rounds api options net i m
      ++ Send options :: pause api (tryRequest api (net (i + m))).
Proof.
  unfold rounds. rewrite seq_S, flat_map_app. simpl. by rewrite app_nil_r.
Qed.

Lemma elem_of_rounds `{XmlParser} (api : Api) options net (ev : event) m : forall i,
  ev ∈ rounds api options net i m ->
  ev = Send options \/
  exists j, i <= j < i + m /\ ev ∈ pause api (tryRequest api (net j)).
Proof.
  induction m as [|m IH]; intros i; [by intros ?%elem_of_nil|].
  rewrite rounds_S, elem_of_app, elem_of_cons.
  intros [Hin|[->|Hin]]; [|by left|].
  - destruct (IH i Hin) as [->|(j & Hj & Hp)]; [by left|].
    right. exists j. split; [lia|done].
  - right. exists (i + m). split; [lia|done].
Qed.

Lemma tryRequest_raw (P1 P2 : XmlParser) (api : Api) (r : transport) :
  Convert (Setting api) = "XML" ->
  @tryRequest P1 api r = @tryRequest P2 api r.
Proof.
  intros Hc. unfold tryRequest. destruct (Requesting r); [|done].
  by destruct (decide (Convert (Setting api) = "XML")).
Qed.

Lemma attempts_raw (P1 P2 : XmlParser) (api : Api) options net n : forall i,
  Convert (Setting api) = "XML" ->
  @attempts P1 api options net n i = @attempts P2 api options net n i.
Proof.
  induction n as [|n IH]; intros i Hc; [done|].
  simpl. rewrite (tryRequest_raw P1 P2) by done. by rewrite (IH (S i)).
Qed.

End LoopFacts.

(** X15.  What [CreateRequest] throws.  It never throws one of the three
    errors it catches, nor [ConfigurationError].  It throws
    [LocalExceededError] exactly when [Requesting] rejects each of the
    [Retrying + 1] answers with one of the three: what the parser makes of a
    body never causes a retry.  Every other error is the error of one of the
    attempts. *)
Theorem CreateRequest_errors `{XmlParser} (api : Api) (options : Options)
    (net : nat -> transport) (e : exn) :
  (CreateRequest api options net).1 = Reject e ->
  (e ∉ [RequestTimeoutError; QuotaExceeded; RequestThrottled; ConfigurationError]) /\
  (e = LocalExceededError <->
     forall i, i <= Retrying (Setting api) ->
       exists e', Requesting (net i) = Reject e' /\ e' ∈ LoopFacts.caught) /\
  (e <> LocalExceededError ->
     exists j, j <= Retrying (Setting api) /\ tryRequest api (net j) = Reject e).
Proof.
  unfold CreateRequest. set (R := Retrying (Setting api)).
  destruct (attempts_spec api options net (R + 1) 0) as (m & Hm & _ & Hres).
  destruct Hres as [(Hpos & _ & Hlast & Hval)|(-> & Hall & Hval)];
    rewrite Hval; simpl in *.
  - intros He.
    destruct (LoopFacts.tryRequest_not_exhausted api (net (m - 1))) as [Hne Hnc].
    rewrite He in Hne, Hnc, Hlast.
    assert (Hnot : e ∉ LoopFacts.caught).
    { intros Hin. assert (retryable (Reject (A := value) e) = true) as Hr; [|congruence].
      apply LoopFacts.retryable_caught. by exists e. }
    unfold LoopFacts.caught in Hnot. rewrite !not_elem_of_cons in Hnot.
    split; [|split].
    + rewrite !not_elem_of_cons.
      repeat split; first [apply not_elem_of_nil | naive_solver].
    + split; [by intros ->|]. intros Hall.
      destruct (Hall (m - 1)) as (e' & He' & Hin); [lia|].
      assert (retryable (tryRequest api (net (m - 1))) = true) as Hr.
      { apply LoopFacts.tryRequest_retryable. by exists e'. }
      rewrite He in Hr. congruence.
    + intros _. exists (m - 1). split; [lia|done].
  - intros [= <-]. split; [by apply (bool_decide_unpack _)|]. split; [|done].
    split; [|done]. intros _ i Hi.
    apply (LoopFacts.tryRequest_retryable api). apply Hall. lia.
Qed.

Lemma CreateRequest_errors_witness :
  exists e', Requesting timedOut = Reject e' /\ e' ∈ LoopFacts.caught.
Proof.
  refine (proj1 (proj1 (proj2
    (CreateRequest_errors (H := noParser) (rawClient 1) someOptions
       (fun _ => timedOut) LocalExceededError _))) _ 1 _); reflexivity.
Defined.

(** X16.  A larger retry budget changes nothing for a call that did not
    exhaust its own: two clients with the same [Action], [Convert] and
    [Throttled], the second with at least as many retries, give the same
    result and the same trace, whatever their other fields, [Timeout]
    included. *)
Theorem CreateRequest_larger_budget `{XmlParser} (api api' : Api)
    (options : Options) (net : nat -> transport) :
  LoopFacts.agree api api' ->
  Retrying (Setting api) <= Retrying (Setting api') ->
  (CreateRequest api options net).1 <> Reject LocalExceededError ->
  CreateRequest api' options net = CreateRequest api options net.
Proof.
  intros Hag Hle Hne. unfold CreateRequest in *.
  rewrite (LoopFacts.attempts_agree api api') by done.
  replace (Retrying (Setting api') + 1)
    with ((Retrying (Setting api) + 1)
          + (Retrying (Setting api') - Retrying (Setting api))) by lia.
  by apply LoopFacts.attempts_more.
Qed.

Lemma CreateRequest_larger_budget_witness :
  @CreateRequest noParser (rawClient 5) someOptions
    (fun i => if decide (i < 1) then timedOut else answered 200 "<ok/>")
  = @CreateRequest noParser (rawClient 1) someOptions
    (fun i => if decide (i < 1) then timedOut else answered 200 "<ok/>").
Proof.
  apply (CreateRequest_larger_budget (H := noParser) (rawClient 1) (rawClient 5)).
  - by repeat split.
  - simpl. lia.
  - by vm_compute.
Defined.

(** X17.  The trace of [CreateRequest] begins with the request; every
    request of it is the one [options] the caller gave, and every sleep lasts
    3600 seconds or the configured back-off.  A call that ends otherwise than
    by [LocalExceededError] ends on a request.  A call that gives up has
    first slept out the pause of its last attempt: the trace ends as that
    attempt's round does. *)
Theorem CreateRequest_trace_shape `{XmlParser} (api : Api) (options : Options)
    (net : nat -> transport) :
  let R := Retrying (Setting api) in
  let run := CreateRequest api options net in
  head run.2 = Some (Send options) /\
  (forall ev, ev ∈ run.2 ->
     ev = Send options \/ ev = Sleep 3600 \/ ev = Sleep (Throttled (Setting api))) /\
  (run.1 <> Reject LocalExceededError -> last run.2 = Some (Send options)) /\
  (run.1 = Reject LocalExceededError ->
     last run.2 = last (Send options :: pause api (tryRequest api (net R)))).
Proof.
  intros R run. unfold run, CreateRequest. fold R.
  destruct (attempts_spec api options net (R + 1) 0) as (m & Hm & Htr & Hres).
  rewrite Htr.
  assert (Hpos : exists m', m = S m').
  { destruct Hres as [(Hpos & _)|(-> & _)]; [exists (m - 1)|exists R]; lia. }
  destruct Hpos as [m' ->].
  assert (Hlast : last (rounds api options net 0 (S m'))
            = last (Send options :: pause api (tryRequest api (net m')))).
  { by rewrite LoopFacts.rounds_S, last_app_cons. }
  split; [done|]. split.
  { intros ev [->|(j & _ & Hp)]%LoopFacts.elem_of_rounds; [by left|]. right.
    destruct (tryRequest api (net j)) as [v|[]]; simpl in Hp;
      try (by apply elem_of_nil in Hp);
      apply list_elem_of_singleton in Hp as ->; first [by left | by right]. }
  destruct Hres as [(_ & _ & Hstop & Hval)|(Hm' & _ & Hval)]; rewrite Hval.
  - replace (0 + S m' - 1) with m' in * by lia.
    rewrite Hlast. split.
    + intros _. by destruct (tryRequest api (net m')) as [v|[]].
    + intros Hex. by destruct (LoopFacts.tryRequest_not_exhausted api (net m')).
  - split; [done|]. intros _. rewrite Hlast. by replace m' with R by lia.
Qed.

(** X18.  With [Convert = "XML"] the parser plays no part: any two parsers
    give the same result and the same trace, and a result is the body of one
    of the first [Retrying + 1] answers, as received, which [Requesting]
    resolved. *)
Theorem CreateRequest_raw_body (P1 P2 : XmlParser) (api : Api)
    (options : Options) (net : nat -> transport) :
  Convert (Setting api) = "XML" ->
  @CreateRequest P1 api options net = @CreateRequest P2 api options net /\
  forall v, (@CreateRequest P1 api options net).1 = Resolve v ->
    exists j, j <= Retrying (Setting api) /\
      Requesting (net j) = Resolve (body (net j)) /\ v = VStr (body (net j)).
Proof.
  intros Hc. split; [by apply LoopFacts.attempts_raw|].
  intros v. unfold CreateRequest.
  destruct (attempts_spec (H := P1) api options net (Retrying (Setting api) + 1) 0)
    as (m & Hm & _ & Hres).
  destruct Hres as [(Hpos & _ & _ & Hval)|(_ & _ & Hval)]; rewrite Hval; [|done].
  simpl. unfold tryRequest.
  destruct (Requesting (net (m - 1))) as [text|e] eqn:Hreq; [|done].
  rewrite decide_True by done. intros [= <-].
  exists (m - 1). split; [lia|].
  assert (text = body (net (m - 1))) as ->; [|done].
  rewrite ClassifyFacts.Requesting_find in Hreq.
  destruct (error (net (m - 1))); [done|].
  destruct (List.find _ markers); [done|].
  destruct (RegExp.envelope _); [done|]. by injection Hreq.
Qed.

Lemma CreateRequest_raw_body_witness :
  @CreateRequest noParser (rawClient 0) someOptions (fun _ => answered 200 "<ok/>")
  = @CreateRequest {| xmlParser := fun _ => VNull |} (rawClient 0) someOptions
      (fun _ => answered 200 "<ok/>").
Proof.
  apply (CreateRequest_raw_body noParser {| xmlParser := fun _ => VNull |}
           (rawClient 0) someOptions (fun _ => answered 200 "<ok/>")).
  reflexivity.
Defined.

(** ** Core.ts: the constructor *)

(** The constructor merges the caller's [seller] and [access] over the
    defaults of [Env], which is not among the sources: the two default
    objects are parameters here.  The merged objects are kept as the objects
    they are, since a caller may leave out or blank any field. *)

Module Construct.

(** the list of the constructor *)
Definition areas : list string :=
  ["BR"; "CA"; "MX"; "AE"; "DE"; "ES"; "FR"; "GB"; "IN"; "IT"; "TR"; "AU";
   "JP"; "CN"; "US"].

(** [areas.includes(v)] *)
Definition includes (v : value) : bool :=
  match v with
  | VStr s => bool_decide (s ∈ areas)
  | _ => false
  end.

(** the keys of the table of [CreateArea] *)
Definition code (area : TArea) : string :=
  match area with
  | BR => "BR" | CA => "CA" | MX => "MX" | AE => "AE" | DE => "DE"
  | ES => "ES" | FR => "FR" | GB => "GB" | IN => "IN" | IT => "IT"
  | TR => "TR" | AU => "AU" | JP => "JP" | CN => "CN" | US => "US"
  end.

Definition table : list TArea :=
  [BR; CA; MX; AE; DE; ES; FR; GB; IN; IT; TR; AU; JP; CN; US].

(** [CreateArea(v)] as the constructor calls it, on a value that has passed
    [includes]: the entry of the table under that code *)
Definition CreateAreaOf (v : value) : option IArea :=
  match v with
  | VStr s => CreateArea <$> List.find (fun a => bool_decide (code a = s)) table
  | _ => None
  end.

(** the fields the constructor sets *)
Record fields : Type :=
  { access : list (string * value);
    seller : list (string * value);
    area : option IArea }.

Definition create (defaultAccess defaultSeller : obj)
    (sellerArg : obj) (accessArg : option obj) : settled fields :=
  let Access := Obj.spread (Obj.spread [] defaultAccess) (default [] accessArg) in
  if negb (truthy (Obj.get Access "AWSAccessKeyId"))
     || negb (truthy (Obj.get Access "AWSAccessSecret"))
  then Reject ConfigurationError
  else
    let Seller := Obj.spread (Obj.spread [] defaultSeller) sellerArg in
    if negb (truthy (Obj.get Seller "SellerId"))
       || negb (truthy (Obj.get Seller "MWSAuthToken"))
    then Reject ConfigurationError
    else if negb (includes (Obj.get Seller "Area"))
    then Reject ConfigurationError
    else Resolve {| access := Access; seller := Seller;
                    area := CreateAreaOf (Obj.get Seller "Area") |}.

(** the list of the constructor and the table of [CreateArea] have the same
    codes *)
Lemma includes_table (v : value) :
  includes v = true ->
  exists a, v = VStr (code a) /\ CreateAreaOf v = Some (CreateArea a).
Proof.
  destruct v as [| | | |s| |]; simpl; try done.
  rewrite bool_decide_eq_true. unfold areas. rewrite !elem_of_cons, elem_of_nil.
  intros Hin.
  repeat (destruct Hin as [->|Hin];
          [eexists; split; [|reflexivity]; reflexivity|]).
  done.
Qed.

Lemma lookup_merged (d s : obj) (k : string) :
  NoDup (Obj.keys d) -> NoDup (Obj.keys s) ->
  Obj.lookup (Obj.spread (Obj.spread [] d) s) k =
    match Obj.lookup s k with Some v => Some v | None => Obj.lookup d k end.
Proof.
  intros Hd Hs. rewrite ObjFacts.lookup_spread by done.
  by rewrite ObjFacts.lookup_spread_nil.
Qed.

End Construct.

(** X19.  A client the constructor returns is configured: the four
    credentials are truthy, and its [Area] is the entry of the table of
    [CreateArea] for the code of its seller, never [undefined], the list of
    the constructor and the table having the same codes.  In the merged
    [Seller] and [Access] a field the caller gave wins over the default, and
    a field the caller left out is the default. *)
Theorem constructor_configured (defaultAccess defaultSeller : obj)
    (sellerArg : obj) (accessArg : option obj) (c : Construct.fields) :
  NoDup (Obj.keys defaultAccess) -> NoDup (Obj.keys defaultSeller) ->
  NoDup (Obj.keys sellerArg) -> NoDup (Obj.keys (default [] accessArg)) ->
  Construct.create defaultAccess defaultSeller sellerArg accessArg = Resolve c ->
  (forall k, k ∈ ["AWSAccessKeyId"; "AWSAccessSecret"] ->
     truthy (Obj.get (Construct.access c) k) = true) /\
  (forall k, k ∈ ["SellerId"; "MWSAuthToken"] ->
     truthy (Obj.get (Construct.seller c) k) = true) /\
  (exists a, Obj.get (Construct.seller c) "Area" = VStr (Construct.code a) /\
             Construct.area c = Some (CreateArea a)) /\
  (forall k, Obj.lookup (Construct.seller c) k =
     match Obj.lookup sellerArg k with
     | Some v => Some v
     | None => Obj.lookup defaultSeller k
     end) /\
  (forall k, Obj.lookup (Construct.access c) k =
     match Obj.lookup (default [] accessArg) k with
     | Some v => Some v
     | None => Obj.lookup defaultAccess k
     end).
Proof.
  intros HdA HdS Hs Ha. unfold Construct.create.
  destruct (negb _ || negb _) eqn:Hacc; [done|].
  destruct (negb _ || negb _) eqn:Hsel in |- *; [done|].
  destruct (negb (Construct.includes _)) eqn:Hinc; [done|].
  intros [= <-]. cbn [Construct.access Construct.seller Construct.area].
  apply orb_false_iff in Hacc as [H1%negb_false_iff H2%negb_false_iff].
  apply orb_false_iff in Hsel as [H3%negb_false_iff H4%negb_false_iff].
  apply negb_false_iff in Hinc.
  split; [|split; [|split; [|split]]].
  - intros k. rewrite !elem_of_cons, elem_of_nil. by intros [->|[->|[]]].
  - intros k. rewrite !elem_of_cons, elem_of_nil. by intros [->|[->|[]]].
  - by apply Construct.includes_table.
  - intros k. by apply Construct.lookup_merged.
  - intros k. by apply Construct.lookup_merged.
Qed.

Lemma constructor_configured_witness :
  exists a,
    Obj.get [("Area", VStr "US"); ("SellerId", VStr "MOCK_ID");
             ("MWSAuthToken", VStr "MOCK_TOKEN")] "Area"
      = VStr (Construct.code a) /\
    Some (CreateArea US) = Some (CreateArea a).
Proof.
  refine (proj1 (proj2 (proj2
    (constructor_configured
       [("AWSAccessKeyId", VStr "AKIDEXAMPLE"); ("AWSAccessSecret", VStr "secret")]
       [("Area", VStr "US")]
       [("SellerId", VStr "MOCK_ID"); ("MWSAuthToken", VStr "MOCK_TOKEN")]
       None
       {| Construct.access :=
            [("AWSAccessKeyId", VStr "AKIDEXAMPLE"); ("AWSAccessSecret", VStr "secret")];
          Construct.seller :=
            [("Area", VStr "US"); ("SellerId", VStr "MOCK_ID");
             ("MWSAuthToken", VStr "MOCK_TOKEN")];
          Construct.area := Some (CreateArea US) |}
       _ _ _ _ _)))).
  - by apply (bool_decide_unpack _).
  - by apply (bool_decide_unpack _).
  - by apply (bool_decide_unpack _).
  - apply NoDup_nil_2.
  - reflexivity.
Defined.

(** X20.  A blank given by the caller defeats the default: when the caller's
    [seller] or [access] has one of the four credentials with a value that
    is not truthy, [undefined] say, the constructor throws
    [ConfigurationError], whatever the defaults are. *)
Theorem constructor_blank_field (defaultAccess defaultSeller : obj)
    (sellerArg : obj) (accessArg : option obj) (k : string) (v : value) :
  NoDup (Obj.keys sellerArg) -> NoDup (Obj.keys (default [] accessArg)) ->
  truthy v = false ->
  (k ∈ ["SellerId"; "MWSAuthToken"] /\ Obj.lookup sellerArg k = Some v) \/
  (k ∈ ["AWSAccessKeyId"; "AWSAccessSecret"] /\
   Obj.lookup (default [] accessArg) k = Some v) ->
  Construct.create defaultAccess defaultSeller sellerArg accessArg
    = Reject ConfigurationError.
Proof.
  intros Hs Ha Hv Hk. unfold Construct.create.
  assert (Hget : forall t s, NoDup (Obj.keys s) -> Obj.lookup s k = Some v ->
            truthy (Obj.get (Obj.spread t s) k) = false).
  { intros t s Hnd Hl. unfold Obj.get. rewrite ObjFacts.lookup_spread by done.
    by rewrite Hl. }
  destruct (negb _ || negb _) eqn:Hacc; [done|].
  destruct (negb _ || negb _) eqn:Hsel in |- *; [done|].
  apply orb_false_iff in Hacc as [H1%negb_false_iff H2%negb_false_iff].
  apply orb_false_iff in Hsel as [H3%negb_false_iff H4%negb_false_iff].
  destruct Hk as [[Hin Hl]|[Hin Hl]];
    rewrite !elem_of_cons, elem_of_nil in Hin.
  - specialize (Hget (Obj.spread [] defaultSeller) sellerArg Hs Hl).
    destruct Hin as [->|[->|[]]]; congruence.
  - specialize (Hget (Obj.spread [] defaultAccess) (default [] accessArg) Ha Hl).
    destruct Hin as [->|[->|[]]]; congruence.
Qed.

Lemma constructor_blank_field_witness :
  Construct.create
    [("AWSAccessKeyId", VStr "AKIDEXAMPLE"); ("AWSAccessSecret", VStr "secret")]
    [("SellerId", VStr "DEFAULT_ID"); ("MWSAuthToken", VStr "DEFAULT_TOKEN");
     ("Area", VStr "US")]
    [("SellerId", VUndefined)] None
  = Reject ConfigurationError.
Proof.
  apply (constructor_blank_field _ _ [("SellerId", VUndefined)] None
           "SellerId" VUndefined).
  - by apply (bool_decide_unpack _).
  - apply NoDup_nil_2.
  - reflexivity.
  - left. split; [by apply (bool_decide_unpack _)|reflexivity].
Defined.

(** ** The envelope pattern of [Requesting] *)

Module EnvelopeFacts.
Import StringFacts.

(** LF, CR, U+2028 and U+2029 in UTF-8 *)
Definition lineTerminators : list string :=
  [String "010" EmptyString; String "013" EmptyString;
   String "226" (String "128" (String "168" EmptyString));
   String "226" (String "128" (String "169" EmptyString))].

(** no line terminator occurs in [s] *)
Definition oneLine (s : string) : Prop :=
  forall t, t ∈ lineTerminators -> RegExp.contains t s = false.

Lemma lineTerminator_spec (s : string) :
  RegExp.lineTerminator s = true <->
  exists t, t ∈ lineTerminators /\ String.prefix t s = true.
Proof.
  unfold RegExp.lineTerminator, lineTerminators. rewrite !orb_true_iff. split.
  - intros [[[H|H]|H]|H]; eexists; (split; [|exact H]);
      by apply (bool_decide_unpack _).
  - intros (t & Hin & Hp). rewrite !elem_of_cons, elem_of_nil in Hin.
    destruct Hin as [->|[->|[->|[->|[]]]]]; tauto.
Qed.

Lemma prefix_app (t a r : string) :
  String.prefix t a = true -> String.prefix t (a +:+ r) = true.
Proof.
  rewrite !prefix_spec. intros [r0 ->]. exists (r0 +:+ r). apply append_assoc.
Qed.

(** a terminator at the head of [a] followed by [>] lies within [a] *)
Lemma prefix_before_gt (t a r : string) :
  t ∈ lineTerminators -> a <> EmptyString ->
  String.prefix t (a +:+ String ">" r) = true -> String.prefix t a = true.
Proof.
  unfold lineTerminators. rewrite !elem_of_cons, elem_of_nil.
  intros [->|[->|[->|[->|[]]]]] Hne; destruct a as [|c1 [|c2 [|c3 a]]]; try done;
    rewrite ?app_cons, ?app_nil_l; cbn [String.prefix];
    repeat (destruct (ascii_dec _ _); try done);
    intros _; by destruct a.
Qed.

Lemma oneLine_cons (c : ascii) (a : string) :
  oneLine (String c a) <->
  RegExp.lineTerminator (String c a) = false /\ oneLine a.
Proof.
  unfold oneLine. split.
  - intros Hall. split.
    + apply not_true_iff_false. intros (t & Hin & Hp)%lineTerminator_spec.
      specialize (Hall t Hin). cbn [RegExp.contains] in Hall.
      by rewrite Hp in Hall.
    + intros t Hin. specialize (Hall t Hin). cbn [RegExp.contains] in Hall.
      by apply orb_false_iff in Hall as [_ ?].
  - intros [Hlt Hall] t Hin. cbn [RegExp.contains].
    rewrite (Hall t Hin), orb_false_r. apply not_true_iff_false. intros Hp.
    assert (RegExp.lineTerminator (String c a) = true); [|congruence].
    apply lineTerminator_spec. by exists t.
Qed.

Lemma oneLine_nil : oneLine EmptyString.
Proof.
  intros t. unfold lineTerminators. rewrite !elem_of_cons, elem_of_nil.
  by intros [->|[->|[->|[->|[]]]]].
Qed.

Lemma lineTerminator_before_gt (a r : string) :
  a <> EmptyString ->
  RegExp.lineTerminator (a +:+ String ">" r) = RegExp.lineTerminator a.
Proof.
  intros Hne. apply eq_true_iff_eq. rewrite !lineTerminator_spec.
  split; intros (t & Hin & Hp); exists t; (split; [done|]).
  - by eapply prefix_before_gt.
  - by apply prefix_app.
Qed.

Lemma envelopeRest_spec (s : string) :
  RegExp.envelopeRest s = true <->
  exists attrs x post,
    s = attrs +:+ ">" +:+ x +:+ "</ErrorResponse>" +:+ post /\ oneLine attrs.
Proof.
  induction s as [|c s IH].
  - split; [done|]. intros ([|] & x & post & Hs & _); by rewrite ?app_cons in Hs.
  - cbn [RegExp.envelopeRest]. rewrite orb_true_iff. split.
    + intros [Hgt|Hgo].
      * destruct (decide (c = ">"%char)) as [->|]; [|done].
        apply contains_spec in Hgt as (x & post & ->).
        exists EmptyString, x, post. split; [done|apply oneLine_nil].
      * destruct (RegExp.lineTerminator (String c s)) eqn:Hlt; [done|].
        apply IH in Hgo as (attrs & x & post & -> & Hone).
        exists (String c attrs), x, post. split; [done|].
        apply oneLine_cons. split; [|done].
        etrans; [|exact Hlt]. symmetry.
        exact (lineTerminator_before_gt (String c attrs)
                 (x +:+ "</ErrorResponse>" +:+ post) ltac:(done)).
    + intros ([|c' attrs] & x & post & Hs & Hone).
      * rewrite app_nil_l in Hs. change (String c s = String ">" (x +:+ "</ErrorResponse>" +:+ post)) in Hs.
        injection Hs as -> ->. left. rewrite decide_True by done.
        apply contains_spec. by exists x, post.
      * rewrite app_cons in Hs. injection Hs as <- ->. right.
        apply oneLine_cons in Hone as [Hlt Hone].
        assert (RegExp.lineTerminator
                  (String c (attrs +:+ ">" +:+ x +:+ "</ErrorResponse>" +:+ post))
                = false) as ->.
        { etrans; [|exact Hlt].
          exact (lineTerminator_before_gt (String c attrs)
                   (x +:+ "</ErrorResponse>" +:+ post) ltac:(done)). }
        apply IH. by exists attrs, x, post.
Qed.

Lemma dropPrefix_spec (p s r : string) :
  RegExp.dropPrefix p s = Some r <-> s = p +:+ r.
Proof.
  revert s. induction p as [|a p IH]; intros s.
  - simpl. rewrite app_nil_l. split; [by intros [= ->] | by intros ->].
  - destruct s as [|b s]; simpl; [by rewrite app_cons|].
    rewrite app_cons. destruct (decide (a = b)) as [->|Hne].
    + rewrite IH. split; [by intros -> | by intros [= ->]].
    + split; [done | by intros [= ? _]].
Qed.

Lemma envelope_head (s : string) :
  RegExp.envelope s =
    match RegExp.dropPrefix "<ErrorResponse" s with
    | Some rest => RegExp.envelopeRest rest
    | None => false
    end ||
    match s with
    | EmptyString => false
    | String _ s' => RegExp.envelope s'
    end.
Proof. by destruct s. Qed.

Lemma envelope_spec (s : string) :
  RegExp.envelope s = true <->
  exists pre attrs x post,
    s = pre +:+ "<ErrorResponse" +:+ attrs +:+ ">" +:+ x
          +:+ "</ErrorResponse>" +:+ post /\
    oneLine attrs.
Proof.
  induction s as [|c s IH]; rewrite envelope_head, orb_true_iff.
  - split; [by intros [|]|].
    intros ([|] & attrs & x & post & Hs & _); by rewrite ?app_cons in Hs.
  - split.
    + intros [Hhere|Hlater].
      * destruct (RegExp.dropPrefix _ _) as [rest|] eqn:Hd; [|done].
        apply dropPrefix_spec in Hd.
        apply envelopeRest_spec in Hhere as (attrs & x & post & -> & Hone).
        by exists EmptyString, attrs, x, post.
      * apply IH in Hlater as (pre & attrs & x & post & -> & Hone).
        by exists (String c pre), attrs, x, post.
    + intros ([|c' pre] & attrs & x & post & Hs & Hone).
      * left. rewrite app_nil_l in Hs. apply dropPrefix_spec in Hs. rewrite Hs.
        apply envelopeRest_spec. by exists attrs, x, post.
      * right. rewrite app_cons in Hs. injection Hs as <- ->.
        apply IH. by exists pre, attrs, x, post.
Qed.

End EnvelopeFacts.

(** X21.  [Requesting] rejects with [UndefinedRequestError] exactly when the
    transport gave no error, no pair of status and marker applies, and the
    body holds an envelope: [<ErrorResponse], then text of one line up to a
    [>], then any text, then [</ErrorResponse>].  The status plays no part
    beyond the nine pairs. *)
Theorem Requesting_envelope (r : transport) :
  Requesting r = Reject UndefinedRequestError <->
  error r = None /\
  (forall st mk e, (st, mk, e) ∈ markers -> statusCode r = st ->
     RegExp.contains mk (body r) = false) /\
  exists pre attrs x post,
    body r = pre +:+ "<ErrorResponse" +:+ attrs +:+ ">" +:+ x
               +:+ "</ErrorResponse>" +:+ post /\
    EnvelopeFacts.oneLine attrs.
Proof.
  rewrite ClassifyFacts.Requesting_find.
  destruct (error r) as [t|].
  { split; [|by intros [? _]]. by destruct (isTimeoutCode (code t)). }
  destruct (List.find (matches r) markers) as [[[st mk] e]|] eqn:Hfind.
  - apply List.find_some in Hfind as [Hin Hm].
    unfold matches in Hm. simpl in Hm.
    apply andb_true_iff in Hm as [Hst%Z.eqb_eq Hmk].
    split.
    + intros [= He]. simpl in He. subst e.
      apply ClassifyFacts.markers_status in Hin as [_ Hnot].
      rewrite !not_elem_of_cons in Hnot. naive_solver.
    + intros (_ & Hno & _). apply list_elem_of_In in Hin.
      specialize (Hno st mk e Hin Hst). congruence.
  - assert (Hno : forall st mk e, (st, mk, e) ∈ markers -> statusCode r = st ->
              RegExp.contains mk (body r) = false).
    { intros st mk e Hin%list_elem_of_In Hst.
      pose proof (List.find_none _ _ Hfind _ Hin) as Hm.
      unfold matches in Hm. simpl in Hm.
      apply andb_false_iff in Hm as [Hne%Z.eqb_neq|]; [done|done]. }
    destruct (RegExp.envelope (body r)) eqn:Henv.
    + split; [|done]. intros _. split; [done|]. split; [done|].
      by apply EnvelopeFacts.envelope_spec.
    + split; [done|]. intros (_ & _ & Hex%EnvelopeFacts.envelope_spec). congruence.
Qed.

(** ** The table of [CreateArea] and the type predicates *)

(** X22.  The marketplace [Id] identifies the area: no two codes of the
    table of [CreateArea] share one, though several share a [Host]. *)
Theorem CreateArea_ids_distinct (a b : TArea) :
  Id (CreateArea a) = Id (CreateArea b) -> a = b.
Proof. destruct a, b; simpl; intros Hid; first [reflexivity | discriminate Hid]. Qed.

Lemma CreateArea_ids_distinct_witness :
  DE = DE /\ Host (CreateArea DE) = Host (CreateArea FR).
Proof.
  split; [|reflexivity]. apply (CreateArea_ids_distinct DE DE). reflexivity.
Defined.

(** X23.  The predicates of [CoreHelpers] split the objects three ways: a
    value is an object exactly when it is an array, an empty object or an
    object with keys, and no value is two of these.  An empty array is not
    an empty object.  Nothing nil and no string is an object. *)
Theorem object_predicates_partition (val : value) :
  isObject val = isArray val || isEmptyObject val || hasKeyObject val /\
  isArray val && isEmptyObject val = false /\
  isArray val && hasKeyObject val = false /\
  isEmptyObject val && hasKeyObject val = false /\
  isNil val && isObject val = false /\
  isString val && isObject val = false.
Proof.
  unfold isEmptyObject, hasKeyObject.
  destruct val as [| |b|n|s|elems|o]; simpl; try done.
  destruct o as [|kv o]; by simpl.
Qed.

(** ** The object [sortObject] returns *)

(** X24.  The keys of the object [sortObject] returns are listed as a plain
    object lists them: the array indices first, by number, then the other
    names in the order of [sort].  [__proto__] is never among them, whatever
    its value; every other key is there exactly when its value is not nil,
    with that value.  So [{'9': 'b', '10': 'a'}] gives the query string
    [9=b&10=a], though [sort] has put ["10"] before ["9"]. *)
Theorem sortObject_enumeration (o : obj) :
  NoDup (Obj.keys o) ->
  StronglySorted enumerated (Obj.keys (sortObject o)) /\
  Obj.lookup (sortObject o) "__proto__" = None /\
  (forall k, k ≠ "__proto__" ->
     Obj.lookup (sortObject o) k = dropNil (Obj.lookup o k)) /\
  sort ["9"; "10"] = ["10"; "9"] /\
  qsStringify (sortObject [("9", VStr "b"); ("10", VStr "a")]) = "9=b&10=a".
Proof.
  intros Hnd. split; [by apply SortFacts.Sorted_keys_sortObject|].
  split; [by rewrite SortFacts.lookup_sortObject, decide_True|].
  split; [|split; by vm_compute].
  intros k Hk. by rewrite SortFacts.lookup_sortObject, decide_False.
Qed.

Lemma sortObject_enumeration_witness :
  Obj.lookup (sortObject [("2", VStr "x"); ("b", VStr "1"); ("__proto__", VStr "p")])
    "__proto__" = None /\
  Obj.keys (sortObject [("2", VStr "x"); ("b", VStr "1"); ("__proto__", VStr "p")])
    = ["2"; "b"].
Proof.
  split; [|by vm_compute].
  apply (sortObject_enumeration
           [("2", VStr "x"); ("b", VStr "1"); ("__proto__", VStr "p")]).
  apply (bool_decide_unpack _). by vm_compute.
Defined.

(** ** The order of [sort] on ASCII names *)

(** every byte of the string is an ASCII character *)
Fixpoint ascii7 (s : string) : bool :=
  match s with
  | EmptyString => true
  | String c s' => (N_of_ascii c <? 128)%N && ascii7 s'
  end.

Lemma compare_ascii7 (s t : string) :
  ascii7 s = true -> ascii7 t = true ->
  UTF16.compare (UTF16.units s) (UTF16.units t) = String.compare s t.
Proof.
  revert t. induction s as [|a s IH]; intros [|b t]; simpl; try done.
  - intros _ [Hb _]%andb_true_iff. by rewrite Hb.
  - intros [Ha _]%andb_true_iff _. by rewrite Ha.
  - intros [Ha Hs]%andb_true_iff [Hb Ht]%andb_true_iff. rewrite Ha, Hb. simpl.
    unfold Ascii.compare. destruct (N_of_ascii a ?= N_of_ascii b)%N; [|done..].
    by apply IH.
Qed.

(** X25.  On names made of ASCII characters, as the parameter names of the
    service are, [sort] orders by byte: the order of the UTF-16 code units
    and the order of the bytes are the same, so a list of such names is
    sorted by [sort] exactly as it is by byte. *)
Theorem sort_ascii_by_byte (ks : list string) :
  Forall (fun k => ascii7 k = true) ks ->
  (forall s t, s ∈ ks -> t ∈ ks -> (UTF16.le s t <-> String.le s t)) /\
  Sorted String.le (sort ks) /\
  sort ks = merge_sort String.le ks.
Proof.
  intros Hall. rewrite Forall_forall in Hall.
  assert (Hiff : forall s t, s ∈ ks -> t ∈ ks -> (UTF16.le s t <-> String.le s t)).
  { intros s t Hs Ht. unfold UTF16.le, UTF16.leb, String.le, String.leb.
    rewrite compare_ascii7 by auto.
    by destruct (String.compare s t). }
  assert (Hsorted : Sorted String.le (sort ks)).
  { pose proof (SortFacts.Sorted_sort ks) as Hs.
    apply Sorted_StronglySorted in Hs; [|apply _].
    apply StronglySorted_Sorted.
    assert (Hin : forall k, k ∈ sort ks -> k ∈ ks)
      by (intros k; by rewrite SortFacts.elem_of_sort).
    induction Hs as [|k l Hs IH Hk]; [constructor|].
    constructor.
    - apply IH. intros k' Hk'. apply Hin. by right.
    - rewrite Forall_forall in *. intros k' Hk'.
      apply Hiff; [apply Hin; by left | apply Hin; by right | by apply Hk]. }
  split; [done|]. split; [done|].
  apply (Sorted_unique String.le); [done | apply Sorted_merge_sort, _ |].
  unfold sort. by rewrite !merge_sort_Permutation.
Qed.

Lemma sort_ascii_by_byte_witness :
  sort ["Version"; "Action"; "AWSAccessKeyId"]
    = merge_sort String.le ["Version"; "Action"; "AWSAccessKeyId"].
Proof.
  apply (sort_ascii_by_byte ["Version"; "Action"; "AWSAccessKeyId"]).
  by repeat constructor.
Defined.
